(** * labelselector: the tokenizer and the recursive-descent parser

    A shallow embedding of [lexer.go] and of the parser of package
    [labelselector], and the properties of the two that the specification
    states.

    Text.  The lexer reads runes from a [bufio.Reader] and builds every
    literal with [bytes.Buffer.WriteRune]; a Go string is therefore modelled
    by the sequence of its runes (its UTF-8 decoding), a rune being a code
    point in [Z].  For ASCII text runes and bytes coincide.

    Loops.  Every [for] loop of the source is a [Fixpoint] on a counter that
    bounds its iterations; a loop that exhausts the counter yields [None].
    [Parse_total] shows that [ParseString] never does. *)

From Stdlib Require Import ZArith List String Ascii Bool Lia.
Import ListNotations.
Local Open Scope Z_scope.

(** ** Runes and Go strings *)

Definition rune : Type := Z.
Definition GoString : Type := list rune.

(** The rune of an ASCII character, ['c'] in the source. *)
Definition chr (c : ascii) : rune := Z.of_N (N_of_ascii c).

(** The Go string of an ASCII literal. *)
Fixpoint runes (s : string) : GoString :=
  match s with
  | EmptyString => []
  | String c s' => chr c :: runes s'
  end.

(** The double quote and the backslash. *)
Definition dquote : rune := 34.
Definition backslash : rune := 92.

Fixpoint GoString_eqb (a b : GoString) : bool :=
  match a, b with
  | [], [] => true
  | x :: a', y :: b' => (x =? y) && GoString_eqb a' b'
  | _, _ => false
  end.

(** [strings.ToUpper], on the ASCII range.  The lexer applies it to a buffer
    of identifier runes only, all of them ASCII. *)
Definition toUpperRune (c : rune) : rune :=
  if (chr "a" <=? c) && (c <=? chr "z") then c - 32 else c.

Definition ToUpper (s : GoString) : GoString := map toUpperRune s.

(** ** lexer.go *)

(** Modelled from the spec: the token kinds [LOWER_THAN], [LOWER_THAN_EQUAL],
    [GREATER_THAN] and [GREATER_THAN_EQUAL], which the inner switch of
    [Parser.Parse] names and [lexer.go] does not declare; the specification
    lists them among the token kinds, distinct from the others.  The first
    twelve constructors are the constants of [lexer.go], in its order. *)
Inductive Token : Type :=
  | ILLEGAL
  | EOF
  | WS
  | IDENT
  | COMMA
  | EXCLAMATION_MARK
  | IN
  | NOT
  | EQUAL
  | NOT_EQUAL
  | OPENING_BRACKET
  | CLOSING_BRACKET
  | LOWER_THAN
  | LOWER_THAN_EQUAL
  | GREATER_THAN
  | GREATER_THAN_EQUAL.

Definition Token_eqb (a b : Token) : bool :=
  match a, b with
  | ILLEGAL, ILLEGAL | EOF, EOF | WS, WS | IDENT, IDENT | COMMA, COMMA
  | EXCLAMATION_MARK, EXCLAMATION_MARK | IN, IN | NOT, NOT | EQUAL, EQUAL
  | NOT_EQUAL, NOT_EQUAL | OPENING_BRACKET, OPENING_BRACKET
  | CLOSING_BRACKET, CLOSING_BRACKET | LOWER_THAN, LOWER_THAN
  | LOWER_THAN_EQUAL, LOWER_THAN_EQUAL | GREATER_THAN, GREATER_THAN
  | GREATER_THAN_EQUAL, GREATER_THAN_EQUAL => true
  | _, _ => false
  end.

Definition eof : rune := 0.

Definition isWhitespace (ch : rune) : bool :=
  (ch =? chr " ") || (ch =? 9 (* tab *)) || (ch =? 10 (* newline *)).

Definition isValidIdentRune (ch : rune) : bool :=
  ((chr "a" <=? ch) && (ch <=? chr "z")) ||
  ((chr "A" <=? ch) && (ch <=? chr "Z")) ||
  ((chr "0" <=? ch) && (ch <=? chr "9")) ||
  (ch =? chr "_") ||
  (ch =? chr "-") ||
  (ch =? chr ".") ||
  (ch =? chr "/").

(** The [Lexer] owns a [bufio.Reader]: the runes not read yet, and the rune
    that [UnreadRune] can put back, which is the last one read provided no
    other operation came in between. *)
Record Lexer : Type := mkLexer {
  pending : list rune;
  lastRune : option rune
}.

Definition NewLexer (input : list rune) : Lexer :=
  {| pending := input; lastRune := None |}.

(** Computations on the lexer: state passing, [None] when a loop counter is
    exhausted. *)
Definition M (A : Type) : Type := Lexer -> option (A * Lexer).

Definition ret {A} (a : A) : M A := fun s => Some (a, s).

Definition bind {A B} (m : M A) (f : A -> M B) : M B :=
  fun s => match m s with
           | Some (a, s') => f a s'
           | None => None
           end.

Definition exhausted {A} : M A := fun _ => None.

Notation "x <- m ;; k" := (bind m (fun x => k))
  (at level 61, m at next level, right associativity).
Notation "' p <- m ;; k" := (bind m (fun x => match x with p => k end))
  (at level 61, p pattern, m at next level, right associativity).
Notation "m ;;; k" := (bind m (fun _ => k))
  (at level 61, right associativity).

(** [bufio.Reader.ReadRune]: at the end of the input it fails and leaves
    nothing to unread. *)
Definition ReadRune (s : Lexer) : option rune * Lexer :=
  match pending s with
  | [] => (None, {| pending := []; lastRune := None |})
  | c :: l => (Some c, {| pending := l; lastRune := Some c |})
  end.

(** [bufio.Reader.UnreadRune]: an error, and no effect, unless the last
    operation was a successful [ReadRune]. *)
Definition UnreadRune (s : Lexer) : Lexer :=
  match lastRune s with
  | Some c => {| pending := c :: pending s; lastRune := None |}
  | None => s
  end.

Definition read : M rune :=
  fun s => match ReadRune s with
           | (Some ch, s') => Some (ch, s')
           | (None, s') => Some (eof, s')
           end.

Definition unread : M unit := fun s => Some (tt, UnreadRune s).

Section Bounded.

(** The bound on the iterations of each loop. *)
Variable N : nat.

Fixpoint scanWhitespace_loop (k : nat) (buf : GoString) : M GoString :=
  match k with
  | O => exhausted
  | S k' =>
      ch <- read ;;
      if ch =? eof then ret buf
      else if negb (isWhitespace ch) then unread ;;; ret buf
      else scanWhitespace_loop k' (buf ++ [ch])
  end.

Definition scanWhitespace : M (Token * GoString) :=
  ch <- read ;;
  buf <- scanWhitespace_loop N [ch] ;;
  ret (WS, buf).

Fixpoint scanIdent_loop (k : nat) (buf : GoString) : M GoString :=
  match k with
  | O => exhausted
  | S k' =>
      ch <- read ;;
      if ch =? eof then ret buf
      else if negb (isValidIdentRune ch) then unread ;;; ret buf
      else scanIdent_loop k' (buf ++ [ch])
  end.

Definition scanIdent : M (Token * GoString) :=
  ch <- read ;;
  buf <- scanIdent_loop N [ch] ;;
  if GoString_eqb (ToUpper buf) (runes "NOT") then ret (NOT, buf)
  else if GoString_eqb (ToUpper buf) (runes "IN") then ret (IN, buf)
  else ret (IDENT, buf).

Fixpoint scanQuotedIdent_loop (k : nat) (buf : GoString) (last : rune)
  : M GoString :=
  match k with
  | O => exhausted
  | S k' =>
      ch <- read ;;
      if (ch =? eof) || ((ch =? dquote) && negb (last =? backslash))
      then ret buf
      else scanQuotedIdent_loop k' (buf ++ [ch]) ch
  end.

Definition scanQuotedIdent : M (Token * GoString) :=
  buf <- scanQuotedIdent_loop N [] 0 ;;
  ret (IDENT, buf).

(** [Lexer.Next].  In the ['!'] and ['='] cases the inner [ch] shadows the
    outer one, so the literal returned is the rune that follows. *)
Definition Next : M (Token * GoString) :=
  ch <- read ;;
  if isWhitespace ch then unread ;;; scanWhitespace
  else if isValidIdentRune ch then unread ;;; scanIdent
  else if ch =? dquote then scanQuotedIdent
  else if ch =? eof then ret (EOF, [])
  else if ch =? chr "!" then
    ch <- read ;;
    if ch =? chr "=" then ret (NOT_EQUAL, runes "!=")
    else unread ;;; ret (EXCLAMATION_MARK, [ch])
  else if ch =? chr "=" then
    ch <- read ;;
    if ch =? chr "=" then ret (EQUAL, runes "==")
    else unread ;;; ret (EQUAL, [ch])
  else if ch =? chr "," then ret (COMMA, [ch])
  else if ch =? chr "(" then ret (OPENING_BRACKET, [ch])
  else if ch =? chr ")" then ret (CLOSING_BRACKET, [ch])
  else ret (ILLEGAL, [ch]).

(** ** The data model *)

(** [type Operation string] *)
Definition Operation : Type := GoString.

Definition OperationIn : Operation := runes "in".
Definition OperationNotIn : Operation := runes "notIn".
Definition OperationExists : Operation := runes "exists".
Definition OperationEquals : Operation := runes "equals".
Definition OperationNotExists : Operation := runes "notExist".
Definition OperationNotEquals : Operation := runes "notEquals".
Definition OperationLowerThan : Operation := runes "lowerThan".
Definition OperationGreaterThan : Operation := runes "greaterThan".
Definition OperationLowerThanEqual : Operation := runes "lowerThanEqual".
Definition OperationGreaterThanEqual : Operation := runes "greaterThanEqual".

Record Requirement : Type := mkRequirement {
  Key : GoString;
  Value : GoString;
  Values : list GoString;
  Operation_ : Operation
}.

(** The zero value [Requirement{}]. *)
Definition zeroRequirement : Requirement :=
  {| Key := []; Value := []; Values := []; Operation_ := [] |}.

Record LabelSelector : Type := mkLabelSelector {
  Requirements : list Requirement
}.

(** Go's [error]: [None] is [nil], [Some msg] an error with that message. *)
Definition error : Type := option GoString.

Definition errors_New (msg : string) : error := Some (runes msg).

(** ** The parser *)

(** A [Parser] holds nothing but its lexer; its methods are computations on
    the lexer. *)

Definition scan : M (Token * GoString) := Next.

Fixpoint next_loop (k : nat) (tl : Token * GoString) : M (Token * GoString) :=
  match k with
  | O => exhausted
  | S k' =>
      match fst tl with
      | WS => tl' <- scan ;; next_loop k' tl'
      | _ => ret tl
      end
  end.

Definition next : M (Token * GoString) :=
  tl <- scan ;;
  next_loop N tl.

Definition parseNotEqualRequirement (key : GoString) : M (Requirement * error) :=
  '(tok, lit) <- next ;;
  match tok with
  | IDENT =>
      ret ({| Key := key; Value := lit; Values := [];
              Operation_ := OperationNotEquals |}, None)
  | _ => ret (zeroRequirement,
              errors_New "expect identifier after not-equal operator")
  end.

Definition parseEqualRequirement (key : GoString) : M (Requirement * error) :=
  '(tok, lit) <- next ;;
  match tok with
  | IDENT =>
      ret ({| Key := key; Value := lit; Values := [];
              Operation_ := OperationEquals |}, None)
  | _ => ret (zeroRequirement,
              errors_New "expect identifier after equal operator")
  end.

Definition parseLowerThanRequirement (key : GoString) : M (Requirement * error) :=
  '(tok, lit) <- next ;;
  match tok with
  | IDENT =>
      ret ({| Key := key; Value := lit; Values := [];
              Operation_ := OperationLowerThan |}, None)
  | _ => ret (zeroRequirement,
              errors_New "expect identifier after < operator")
  end.

Definition parseLowerThanEqualRequirement (key : GoString)
  : M (Requirement * error) :=
  '(tok, lit) <- next ;;
  match tok with
  | IDENT =>
      ret ({| Key := key; Value := lit; Values := [];
              Operation_ := OperationLowerThanEqual |}, None)
  | _ => ret (zeroRequirement,
              errors_New "expect identifier after <= operator")
  end.

Definition parseGreaterThanRequirement (key : GoString)
  : M (Requirement * error) :=
  '(tok, lit) <- next ;;
  match tok with
  | IDENT =>
      ret ({| Key := key; Value := lit; Values := [];
              Operation_ := OperationGreaterThan |}, None)
  | _ => ret (zeroRequirement,
              errors_New "expect identifier after > operator")
  end.

Definition parseGreaterThanEqualRequirement (key : GoString)
  : M (Requirement * error) :=
  '(tok, lit) <- next ;;
  match tok with
  | IDENT =>
      ret ({| Key := key; Value := lit; Values := [];
              Operation_ := OperationGreaterThanEqual |}, None)
  | _ => ret (zeroRequirement,
              errors_New "expect identifier after >= operator")
  end.

(** [fmt.Errorf] with one [%s] verb: the text before it, the argument, the
    text after it. *)
Definition Errorf (before : string) (arg : GoString) (after : string) : error :=
  Some (runes before ++ arg ++ runes after).

Fixpoint parseIdentList_loop (k : nat) (list_ : list GoString)
  : M (list GoString * error) :=
  match k with
  | O => exhausted
  | S k' =>
      '(tok, lit) <- next ;;
      match tok with
      | CLOSING_BRACKET => ret (list_, None)
      | COMMA => parseIdentList_loop k' list_
      | IDENT => parseIdentList_loop k' (list_ ++ [lit])
      | _ => ret ([], Errorf "unexpected token in value list (" lit ")")
      end
  end.

Definition parseIdentList : M (list GoString * error) :=
  parseIdentList_loop N [].

Definition parseNotExistsRequirement : M (Requirement * error) :=
  '(tok, lit) <- next ;;
  match tok with
  | IDENT =>
      ret ({| Key := lit; Value := []; Values := [];
              Operation_ := OperationNotExists |}, None)
  | _ => ret (zeroRequirement,
              errors_New "expect identifier after exclamation mark")
  end.

Definition parseInRequirement (key : GoString) : M (Requirement * error) :=
  let req := {| Key := key; Value := []; Values := [];
                Operation_ := OperationIn |} in
  '(tok, _) <- next ;;
  match tok with
  | OPENING_BRACKET =>
      '(list_, err) <- parseIdentList ;;
      match err with
      | Some _ => ret (req, err)
      | None =>
          ret ({| Key := Key req; Value := Value req; Values := list_;
                  Operation_ := Operation_ req |}, err)
      end
  | _ => ret (req, errors_New "expect opening bracket after in operator")
  end.

Definition parseNotInRequirement (key : GoString) : M (Requirement * error) :=
  '(tok, lit) <- next ;;
  match tok with
  | IN =>
      '(req, err) <- parseInRequirement key ;;
      match err with
      | Some _ => ret (req, err)
      | None =>
          ret ({| Key := Key req; Value := Value req; Values := Values req;
                  Operation_ := OperationNotIn |}, None)
      end
  | _ => ret (zeroRequirement, Errorf "require 'IN' after 'NOT' got '" lit "'")
  end.

Definition append (selector : LabelSelector) (req : Requirement)
  : LabelSelector :=
  {| Requirements := Requirements selector ++ [req] |}.

(** The loop of [Parser.Parse].  [continue] and the end of the body go round
    the loop again; [break] and [return] leave it. *)
Fixpoint Parse_loop (k : nat) (selector : LabelSelector)
  : M (LabelSelector * error) :=
  match k with
  | O => exhausted
  | S k' =>
      '(tok, lit) <- next ;;
      if Token_eqb tok COMMA then Parse_loop k' selector
      else if Token_eqb tok EOF then ret (selector, None)
      else if Token_eqb tok ILLEGAL
      then ret (selector, errors_New "illegal token")
      else
        match tok with
        | EXCLAMATION_MARK =>
            '(req, err) <- parseNotExistsRequirement ;;
            match err with
            | Some _ => ret (selector, err)
            | None => Parse_loop k' (append selector req)
            end
        | IDENT =>
            let key := lit in
            '(tok, lit) <- next ;;
            let after (m : M (Requirement * error)) :=
              '(req, err) <- m ;;
              match err with
              | Some _ => ret (selector, err)
              | None => Parse_loop k' (append selector req)
              end in
            match tok with
            | EQUAL => after (parseEqualRequirement key)
            | NOT_EQUAL => after (parseNotEqualRequirement key)
            | IN => after (parseInRequirement key)
            | LOWER_THAN => after (parseLowerThanRequirement key)
            | LOWER_THAN_EQUAL => after (parseLowerThanEqualRequirement key)
            | GREATER_THAN => after (parseGreaterThanRequirement key)
            | GREATER_THAN_EQUAL =>
                after (parseGreaterThanEqualRequirement key)
            | NOT => after (parseNotInRequirement key)
            | COMMA | EOF =>
                after (ret ({| Key := key; Value := []; Values := [];
                               Operation_ := OperationExists |}, None))
            | _ => ret (selector, Errorf "unexpected token '" lit "'")
            end
        | _ => Parse_loop k' selector
        end
  end.

End Bounded.

(** [Parser.Parse], on a parser whose lexer is [s]. *)
Definition Parse (s : Lexer) : option (LabelSelector * error) :=
  let n := S (List.length (pending s)) in
  match Parse_loop n n {| Requirements := [] |} s with
  | Some (r, _) => Some r
  | None => None
  end.

(** [ParseString]: [strings.NewReader], [NewParser], [Parse]. *)
Definition ParseString (str : GoString) : option (LabelSelector * error) :=
  Parse (NewLexer str).

(** * The vocabulary of the statements *)

(** ** Runs of runes *)

(** [rest] ends a run of the class [p]: it is empty, or starts with a rune
    outside the class. *)
Definition endsRun (p : rune -> bool) (rest : list rune) : bool :=
  match rest with
  | [] => true
  | c :: _ => negb (p c)
  end.

(** What is pending after a run followed by [rest] was scanned: the rune
    that ends the run is put back, unless it is the [eof] sentinel. *)
Definition afterRun (rest : list rune) : list rune :=
  match rest with
  | [] => []
  | c :: r => if c =? eof then r else rest
  end.

(** [rest] ends a run of the class [p] and the scan stops exactly in front
    of it. *)
Definition stops (p : rune -> bool) (rest : list rune) : Prop :=
  match rest with
  | [] => True
  | c :: _ => p c = false /\ c <> eof
  end.

(** [l] is what remains of [l0] after some runes were consumed. *)
Definition remains (l l0 : list rune) : Prop := exists q, l0 = q ++ l.

(** ** Quoted literals *)

(** The literal of a quoted identifier as the specification words it: [lit]
    is the text of [rest] up to the first double quote that no backslash
    immediately precedes, or up to the end of the input; [after] is what
    follows the closing quote. *)
Definition quoted_literal_as_specified (rest lit after : list rune) : Prop :=
  exists tail,
    rest = lit ++ tail /\
    (forall a b, lit = a ++ dquote :: b -> last a 0 = backslash) /\
    ((tail = [] /\ after = []) \/
     (tail = dquote :: after /\ last lit 0 <> backslash)).

(** The literal the scan produces: as above, except that the [eof] sentinel
    rune ends the literal as well, and is consumed like a closing quote. *)
Definition quoted_literal (rest lit after : list rune) : Prop :=
  exists tail,
    rest = lit ++ tail /\
    ~ In eof lit /\
    (forall a b, lit = a ++ dquote :: b -> last a 0 = backslash) /\
    ((tail = [] /\ after = []) \/
     tail = eof :: after \/
     (tail = dquote :: after /\ last lit 0 <> backslash)).

(** ** Keywords and identifiers *)

Definition upperLetter (c : rune) : bool := (chr "A" <=? c) && (c <=? chr "Z").

(** Two runes equal up to the case of an ASCII letter. *)
Definition sameLetter (x y : rune) : bool :=
  (x =? y) ||
  (upperLetter x && (y =? x + 32)) ||
  (upperLetter y && (x =? y + 32)).

(** Case-insensitive equality of two texts. *)
Fixpoint EqualFold (a b : GoString) : bool :=
  match a, b with
  | [], [] => true
  | x :: a', y :: b' => sameLetter x y && EqualFold a' b'
  | _, _ => false
  end.

(** The token kind of a run of identifier runes. *)
Definition keywordToken (text : GoString) : Token :=
  if EqualFold text (runes "NOT") then NOT
  else if EqualFold text (runes "IN") then IN
  else IDENT.

(** The texts that are identifiers when they stand unquoted: a non-empty run
    of identifier runes that is no keyword. *)
Definition isIdentifier (text : GoString) : bool :=
  match text with [] => false | _ :: _ => true end &&
  forallb isValidIdentRune text &&
  Token_eqb (keywordToken text) IDENT.

(** ** Clauses *)

(** The requirement of a bare key. *)
Definition existsRequirement (key : GoString) : Requirement :=
  {| Key := key; Value := []; Values := []; Operation_ := OperationExists |}.

(** The sub-parser that the inner switch of [Parse] calls on the token that
    follows a key. *)
Definition clauseParser (tok : Token)
  : option (nat -> GoString -> M (Requirement * error)) :=
  match tok with
  | EQUAL => Some parseEqualRequirement
  | NOT_EQUAL => Some parseNotEqualRequirement
  | IN => Some parseInRequirement
  | LOWER_THAN => Some parseLowerThanRequirement
  | LOWER_THAN_EQUAL => Some parseLowerThanEqualRequirement
  | GREATER_THAN => Some parseGreaterThanRequirement
  | GREATER_THAN_EQUAL => Some parseGreaterThanEqualRequirement
  | NOT => Some parseNotInRequirement
  | _ => None
  end.

(** The token kinds for which the outer switch of [Parse] has no case. *)
Definition startsNoClause (tok : Token) : bool :=
  match tok with
  | COMMA | EOF | ILLEGAL | EXCLAMATION_MARK | IDENT => false
  | _ => true
  end.


(** Every key of the selector is a non-empty string. *)
Definition keysNonEmpty (selector : LabelSelector) : Prop :=
  Forall (fun req => Key req <> []) (Requirements selector).

(** ** Lists of bare identifiers *)

(** The runes that may stand between two bare identifiers. *)
Definition isSeparatorRune (c : rune) : bool :=
  isWhitespace c || (c =? chr ",").

(** A list of identifiers as text: [lead], then each identifier followed by
    its separator. *)
Fixpoint identifierList (lead : GoString) (items : list (GoString * GoString))
  : GoString :=
  match items with
  | [] => lead
  | (id, sep) :: items' => lead ++ id ++ identifierList sep items'
  end.

(** Every item is an identifier followed by commas and whitespace, with at
    least one comma where another identifier follows. *)
Fixpoint wellSeparated (items : list (GoString * GoString)) : bool :=
  match items with
  | [] => true
  | (id, sep) :: items' =>
      isIdentifier id &&
      forallb isSeparatorRune sep &&
      match items' with
      | [] => true
      | _ :: _ => existsb (fun c => c =? chr ",") sep
      end &&
      wellSeparated items'
  end.

(** ** One iteration of the loop of [Parse] *)

(** How an iteration ends: [return] or [break] with an error or [nil],
    another iteration with the selector unchanged, or another iteration
    after a requirement was appended. *)
Inductive Outcome : Type :=
  | Stop (err : error)
  | Skip
  | Emit (req : Requirement).

Definition outcomeOf (r : Requirement * error) : Outcome :=
  match snd r with
  | Some _ => Stop (snd r)
  | None => Emit (fst r)
  end.

(** The body of the loop of [Parse]. *)
Definition clause (N : nat) : M Outcome :=
  '(tok, lit) <- next N ;;
  if Token_eqb tok COMMA then ret Skip
  else if Token_eqb tok EOF then ret (Stop None)
  else if Token_eqb tok ILLEGAL then ret (Stop (errors_New "illegal token"))
  else
    match tok with
    | EXCLAMATION_MARK =>
        r <- parseNotExistsRequirement N ;; ret (outcomeOf r)
    | IDENT =>
        let key := lit in
        '(tok, lit) <- next N ;;
        match tok with
        | EQUAL => r <- parseEqualRequirement N key ;; ret (outcomeOf r)
        | NOT_EQUAL => r <- parseNotEqualRequirement N key ;; ret (outcomeOf r)
        | IN => r <- parseInRequirement N key ;; ret (outcomeOf r)
        | LOWER_THAN =>
            r <- parseLowerThanRequirement N key ;; ret (outcomeOf r)
        | LOWER_THAN_EQUAL =>
            r <- parseLowerThanEqualRequirement N key ;; ret (outcomeOf r)
        | GREATER_THAN =>
            r <- parseGreaterThanRequirement N key ;; ret (outcomeOf r)
        | GREATER_THAN_EQUAL =>
            r <- parseGreaterThanEqualRequirement N key ;; ret (outcomeOf r)
        | NOT => r <- parseNotInRequirement N key ;; ret (outcomeOf r)
        | COMMA | EOF => ret (Emit (existsRequirement key))
        | _ => ret (Stop (Errorf "unexpected token '" lit "'"))
        end
    | _ => ret Skip
    end.

(** The token kinds that [lexer.go] declares. *)
Definition declared (tok : Token) : bool :=
  match tok with
  | LOWER_THAN | LOWER_THAN_EQUAL | GREATER_THAN | GREATER_THAN_EQUAL => false
  | _ => true
  end.

(** The runes that belong to no token family. *)
Definition isIllegalRune (c : rune) : bool :=
  negb (isWhitespace c || isValidIdentRune c || (c =? dquote) || (c =? eof) ||
        (c =? chr "!") || (c =? chr "=") || (c =? chr ",") ||
        (c =? chr "(") || (c =? chr ")")).

(** The operations of the four ordering operators. *)
Definition isOrdering (op : Operation) : bool :=
  GoString_eqb op OperationLowerThan ||
  GoString_eqb op OperationLowerThanEqual ||
  GoString_eqb op OperationGreaterThan ||
  GoString_eqb op OperationGreaterThanEqual.

(** A requirement populates the fields of its operation only: a key alone
    for [exists] and [notExist], a key and [Value] for the binary
    operators, a key and [Values] for [in] and [notIn]. *)
Definition wellFormed (req : Requirement) : bool :=
  ((GoString_eqb (Operation_ req) OperationExists ||
    GoString_eqb (Operation_ req) OperationNotExists) &&
   match Value req, Values req with [], [] => true | _, _ => false end) ||
  ((GoString_eqb (Operation_ req) OperationEquals ||
    GoString_eqb (Operation_ req) OperationNotEquals ||
    isOrdering (Operation_ req)) &&
   match Values req with [] => true | _ => false end) ||
  ((GoString_eqb (Operation_ req) OperationIn ||
    GoString_eqb (Operation_ req) OperationNotIn) &&
   match Value req with [] => true | _ => false end).

(** ** Further vocabulary *)

(** The binary operators that the lexer knows, as they are written, with the
    operation of the requirement and the message of the error for a missing
    operand. *)
Definition binaryOperator (op : GoString) : option (Operation * string) :=
  if GoString_eqb op (runes "=") || GoString_eqb op (runes "==")
  then Some (OperationEquals, "expect identifier after equal operator"%string)
  else if GoString_eqb op (runes "!=")
  then Some (OperationNotEquals,
             "expect identifier after not-equal operator"%string)
  else None.

(** The items of a value list: every item is an identifier followed by
    commas and whitespace, at least one of them where another identifier
    follows. *)
Fixpoint wellSpaced (items : list (GoString * GoString)) : bool :=
  match items with
  | [] => true
  | (id, sep) :: items' =>
      isIdentifier id &&
      forallb isSeparatorRune sep &&
      match items', sep with
      | _ :: _, [] => false
      | _, _ => true
      end &&
      wellSpaced items'
  end.

(** A text that can stand between double quotes as it is: it holds neither
    a double quote nor the [eof] sentinel and does not end in a backslash. *)
Definition isPlainQuoted (lit : GoString) : bool :=
  forallb (fun c => negb (c =? dquote) && negb (c =? eof)) lit &&
  negb (last lit 0 =? backslash).

(** [stops], as a test. *)
Definition stopsb (p : rune -> bool) (rest : list rune) : bool :=
  match rest with
  | [] => true
  | c :: _ => negb (p c) && negb (c =? eof)
  end.

(** * Facts about the lexer *)

(** ** Rune classes *)

Ltac unchr :=
  change (chr " ") with 32 in *; change (chr "!") with 33 in *;
  change (chr "=") with 61 in *; change (chr ",") with 44 in *;
  change (chr "(") with 40 in *; change (chr ")") with 41 in *;
  change (chr "a") with 97 in *; change (chr "z") with 122 in *;
  change (chr "A") with 65 in *; change (chr "Z") with 90 in *;
  change (chr "0") with 48 in *; change (chr "9") with 57 in *;
  change (chr "_") with 95 in *; change (chr "-") with 45 in *;
  change (chr ".") with 46 in *; change (chr "/") with 47 in *.

Ltac b2p :=
  repeat match goal with
  | H : _ && _ = true |- _ => apply andb_true_iff in H; destruct H
  | H : _ || _ = false |- _ => apply orb_false_iff in H; destruct H
  | H : negb _ = true |- _ => apply negb_true_iff in H
  | H : negb _ = false |- _ => apply negb_false_iff in H
  | H : (_ =? _) = true |- _ => apply Z.eqb_eq in H
  | H : (_ =? _) = false |- _ => apply Z.eqb_neq in H
  | H : (_ <=? _) = true |- _ => apply Z.leb_le in H
  | H : (_ <=? _) = false |- _ => apply Z.leb_gt in H
  end.

(** Settles a fact about the rune classes by arithmetic. *)
Ltac rune_lia :=
  unfold isWhitespace, isValidIdentRune, eof, dquote, backslash in *;
  unchr;
  repeat match goal with
  | H : _ || _ = true |- _ => apply orb_true_iff in H; destruct H
  | _ => progress b2p
  end;
  repeat match goal with
  | |- context [?a =? ?b] => destruct (Z.eqb_spec a b)
  | |- context [?a <=? ?b] => destruct (Z.leb_spec a b)
  end; simpl; try reflexivity; try discriminate; try lia.

Lemma isWhitespace_not_eof c : isWhitespace c = true -> c <> eof.
Proof. intros H ->. discriminate H. Qed.

Lemma isValidIdentRune_not_eof c : isValidIdentRune c = true -> c <> eof.
Proof. intros H ->. discriminate H. Qed.

Lemma ident_not_ws c : isValidIdentRune c = true -> isWhitespace c = false.
Proof. intro H. rune_lia. Qed.

Lemma stops_endsRun p rest :
  stops p rest -> endsRun p rest = true /\ afterRun rest = rest.
Proof.
  destruct rest as [|c r]; simpl; [auto|]. intros [Hp Hc].
  apply Z.eqb_neq in Hc. now rewrite Hp, Hc.
Qed.

(** ** What remains of the input *)

Lemma remains_refl l : remains l l.
Proof. exists []. reflexivity. Qed.

Lemma remains_cons c l l0 : remains l l0 -> remains l (c :: l0).
Proof. intros [q ->]. exists (c :: q). reflexivity. Qed.

Lemma remains_trans l1 l2 l3 : remains l1 l2 -> remains l2 l3 -> remains l1 l3.
Proof. intros [q ->] [q' ->]. exists (q' ++ q). now rewrite app_assoc. Qed.

Lemma remains_afterRun rest : remains (afterRun rest) rest.
Proof.
  destruct rest as [|c r]; simpl; [apply remains_refl|].
  destruct (c =? eof); [apply remains_cons|]; apply remains_refl.
Qed.

Lemma remains_length l l0 :
  remains l l0 -> (List.length l <= List.length l0)%nat.
Proof. intros [q ->]. rewrite length_app. lia. Qed.

Lemma remains_In c l l0 : remains l l0 -> In c l -> In c l0.
Proof. intros [q ->] H. apply in_or_app. auto. Qed.

Create HintDb lexer.
#[local] Hint Resolve remains_refl remains_cons remains_afterRun : lexer.

(** ** The reader *)

Lemma read_nil s :
  pending s = [] -> read s = Some (eof, {| pending := []; lastRune := None |}).
Proof. intro H. unfold read, ReadRune. rewrite H. reflexivity. Qed.

Lemma read_cons s c l :
  pending s = c :: l ->
  read s = Some (c, {| pending := l; lastRune := Some c |}).
Proof. intro H. unfold read, ReadRune. rewrite H. reflexivity. Qed.

(** ** The loops of [scanWhitespace] and [scanIdent] *)

Section Loops.

Variable p : rune -> bool.
Variable loop : nat -> GoString -> M GoString.
Hypothesis loop_eq : forall k buf,
  loop (S k) buf =
  (ch <- read ;;
   if ch =? eof then ret buf
   else if negb (p ch) then unread ;;; ret buf
   else loop k (buf ++ [ch])).

(** On a run of the class the loop appends the run to the buffer. *)
Lemma loop_exact run : forall k buf rest s,
  pending s = run ++ rest ->
  Forall (fun c => p c = true /\ c <> eof) run ->
  endsRun p rest = true ->
  (List.length run < k)%nat ->
  exists s', loop k buf s = Some (buf ++ run, s') /\
             pending s' = afterRun rest.
Proof.
  induction run as [|c run IH]; intros k buf rest s Hp Hrun Hend Hk.
  - destruct k as [|k]; [simpl in Hk; lia|]. rewrite loop_eq. unfold bind.
    simpl in Hp. rewrite app_nil_r. destruct rest as [|c r].
    + rewrite (read_nil _ Hp). simpl. eexists. split; reflexivity.
    + rewrite (read_cons _ _ _ Hp). simpl in *. destruct (c =? eof).
      * eexists. split; reflexivity.
      * rewrite Hend. eexists. split; reflexivity.
  - destruct k as [|k]; [simpl in Hk; lia|]. rewrite loop_eq. unfold bind.
    simpl in Hp. rewrite (read_cons _ _ _ Hp).
    inversion Hrun as [|? ? [Hpc Hc] Hrun']; subst.
    apply Z.eqb_neq in Hc. rewrite Hc, Hpc. simpl.
    destruct (IH k (buf ++ [c]) rest
                {| pending := run ++ rest; lastRune := Some c |})
      as [s' [E Hs']]; auto.
    { simpl in Hk. lia. }
    exists s'. rewrite E, <- app_assoc. auto.
Qed.

(** The loop returns whatever is pending, and only extends the buffer. *)
Lemma loop_total : forall k buf s,
  (List.length (pending s) < k)%nat ->
  exists w s', loop k buf s = Some (buf ++ w, s') /\
               remains (pending s') (pending s).
Proof.
  induction k as [|k IH]; intros buf s Hk; [lia|].
  rewrite loop_eq. unfold bind.
  destruct (pending s) as [|c l] eqn:Hp.
  - rewrite (read_nil _ Hp). simpl.
    exists [], {| pending := []; lastRune := None |}.
    rewrite app_nil_r. auto with lexer.
  - rewrite (read_cons _ _ _ Hp). destruct (c =? eof).
    + exists []. eexists. rewrite app_nil_r. split; [reflexivity|].
      simpl. auto with lexer.
    + destruct (p c); simpl.
      * destruct (IH (buf ++ [c]) {| pending := l; lastRune := Some c |})
          as [w [s' [E R]]]; [simpl in *; lia|].
        exists (c :: w), s'. rewrite E, <- app_assoc. simpl in R.
        auto with lexer.
      * exists []. eexists. rewrite app_nil_r. split; [reflexivity|].
        simpl. auto with lexer.
Qed.

End Loops.

Lemma scanWhitespace_loop_exact run k buf rest s :
  pending s = run ++ rest ->
  Forall (fun c => isWhitespace c = true) run ->
  endsRun isWhitespace rest = true ->
  (List.length run < k)%nat ->
  exists s', scanWhitespace_loop k buf s = Some (buf ++ run, s') /\
             pending s' = afterRun rest.
Proof.
  intros Hp Hrun. apply (loop_exact isWhitespace scanWhitespace_loop); auto.
  eapply Forall_impl; [|exact Hrun]. intros c H. split; auto.
  now apply isWhitespace_not_eof.
Qed.

Lemma scanIdent_loop_exact run k buf rest s :
  pending s = run ++ rest ->
  Forall (fun c => isValidIdentRune c = true) run ->
  endsRun isValidIdentRune rest = true ->
  (List.length run < k)%nat ->
  exists s', scanIdent_loop k buf s = Some (buf ++ run, s') /\
             pending s' = afterRun rest.
Proof.
  intros Hp Hrun. apply (loop_exact isValidIdentRune scanIdent_loop); auto.
  eapply Forall_impl; [|exact Hrun]. intros c H. split; auto.
  now apply isValidIdentRune_not_eof.
Qed.

Lemma scanWhitespace_loop_total k buf s :
  (List.length (pending s) < k)%nat ->
  exists w s', scanWhitespace_loop k buf s = Some (buf ++ w, s') /\
               remains (pending s') (pending s).
Proof. apply (loop_total isWhitespace scanWhitespace_loop); auto. Qed.

Lemma scanIdent_loop_total k buf s :
  (List.length (pending s) < k)%nat ->
  exists w s', scanIdent_loop k buf s = Some (buf ++ w, s') /\
               remains (pending s') (pending s).
Proof. apply (loop_total isValidIdentRune scanIdent_loop); auto. Qed.

(** ** The loop of [scanQuotedIdent] *)

Lemma last_cons_default (c d : rune) l : last (c :: l) d = last l c.
Proof.
  revert c d. induction l as [|x l IH]; intros c d; [reflexivity|].
  change (last (c :: x :: l) d) with (last (x :: l) d).
  rewrite (IH x d), (IH x c). reflexivity.
Qed.

Lemma scanQuotedIdent_loop_spec l : forall k buf lst s,
  pending s = l ->
  (List.length l < k)%nat ->
  exists w tail s',
    scanQuotedIdent_loop k buf lst s = Some (buf ++ w, s') /\
    l = w ++ tail /\
    ~ In eof w /\
    (forall a b, w = a ++ dquote :: b -> last a lst = backslash) /\
    ((tail = [] /\ pending s' = []) \/
     tail = eof :: pending s' \/
     (tail = dquote :: pending s' /\ last w lst <> backslash)).
Proof.
  induction l as [|c l IH]; intros k buf lst s Hp Hk;
    (destruct k as [|k]; [simpl in Hk; lia|]); simpl; unfold bind.
  - rewrite (read_nil _ Hp). simpl.
    exists [], [], {| pending := []; lastRune := None |}.
    rewrite app_nil_r. repeat split; auto.
    intros a b E. destruct a; discriminate E.
  - rewrite (read_cons _ _ _ Hp).
    destruct ((c =? eof) || (c =? dquote) && negb (lst =? backslash)) eqn:Hc.
    + exists [], (c :: l). eexists. rewrite app_nil_r.
      split; [reflexivity|]. split; [reflexivity|]. split; [auto|].
      split; [intros a b E; destruct a; discriminate E|]. simpl.
      apply orb_true_iff in Hc. destruct Hc as [Hc|Hc].
      * apply Z.eqb_eq in Hc. subst c. auto.
      * apply andb_true_iff in Hc. destruct Hc as [Hc Hl].
        apply Z.eqb_eq in Hc. apply negb_true_iff, Z.eqb_neq in Hl. subst c.
        auto.
    + apply orb_false_iff in Hc. destruct Hc as [Hc Hq].
      apply Z.eqb_neq in Hc.
      destruct (IH k (buf ++ [c]) c {| pending := l; lastRune := Some c |})
        as (w & tail & s' & E & Hl & Hn & Hesc & Hclose);
        [reflexivity | simpl in Hk; lia |].
      exists (c :: w), tail, s'. rewrite E, <- app_assoc.
      split; [reflexivity|]. split; [simpl; congruence|].
      split; [intros [H|H]; [congruence | auto]|].
      split.
      * intros a b Eab. destruct a as [|x a]; simpl in Eab.
        -- injection Eab as Ec _. subst c. simpl.
           apply andb_false_iff in Hq. destruct Hq as [Hq|Hq].
           ++ apply Z.eqb_neq in Hq. congruence.
           ++ apply negb_false_iff, Z.eqb_eq in Hq. exact Hq.
        -- injection Eab as Ex Ew. subst x. rewrite last_cons_default.
           eapply Hesc. exact Ew.
      * rewrite last_cons_default. exact Hclose.
Qed.

(** ** Keywords *)

Lemma toUpperRune_sameLetter x y :
  upperLetter y = true -> (toUpperRune x =? y) = sameLetter x y.
Proof.
  intro Hy. apply eq_true_iff_eq.
  unfold sameLetter, toUpperRune, upperLetter in *. unchr.
  rewrite !orb_true_iff, !andb_true_iff, !Z.eqb_eq, !Z.leb_le.
  apply andb_true_iff in Hy. rewrite !Z.leb_le in Hy.
  destruct ((97 <=? x) && (x <=? 122)) eqn:Hx.
  - apply andb_true_iff in Hx. rewrite !Z.leb_le in Hx. lia.
  - apply andb_false_iff in Hx. rewrite !Z.leb_gt in Hx. lia.
Qed.

(** Comparing the upper-cased text with an upper-case keyword is comparing
    the text with the keyword up to case. *)
Lemma ToUpper_EqualFold kw : forall text,
  forallb upperLetter kw = true ->
  GoString_eqb (ToUpper text) kw = EqualFold text kw.
Proof.
  induction kw as [|y kw IH]; intros [|x text] H; simpl; try reflexivity.
  simpl in H. apply andb_true_iff in H. destruct H as [Hy Hkw].
  rewrite toUpperRune_sameLetter, IH; auto.
Qed.

Lemma keyword_switch (A : Type) text (a b c : A) :
  (if GoString_eqb (ToUpper text) (runes "NOT") then a
   else if GoString_eqb (ToUpper text) (runes "IN") then b else c) =
  match keywordToken text with NOT => a | IN => b | _ => c end.
Proof.
  unfold keywordToken. rewrite !ToUpper_EqualFold by reflexivity.
  destruct (EqualFold text (runes "NOT")); [reflexivity|].
  destruct (EqualFold text (runes "IN")); reflexivity.
Qed.

Lemma keywordToken_cases text :
  keywordToken text = NOT \/ keywordToken text = IN \/
  keywordToken text = IDENT.
Proof.
  unfold keywordToken. destruct (EqualFold _ _); auto.
  destruct (EqualFold _ _); auto.
Qed.

Lemma forallb_Forall_true {A} (f : A -> bool) l :
  forallb f l = true -> Forall (fun c => f c = true) l.
Proof. intro H. apply Forall_forall. now apply forallb_forall. Qed.

Lemma isIdentifier_inv text :
  isIdentifier text = true ->
  text <> [] /\ Forall (fun c => isValidIdentRune c = true) text /\
  keywordToken text = IDENT.
Proof.
  unfold isIdentifier. intro H.
  apply andb_true_iff in H. destruct H as [H Hk].
  apply andb_true_iff in H. destruct H as [Hne Hall].
  split; [destruct text; [discriminate | congruence]|].
  split; [now apply forallb_Forall_true|].
  destruct (keywordToken_cases text) as [E|[E|E]]; rewrite E in Hk;
    try discriminate; assumption.
Qed.

Lemma identifier_head id rest :
  isIdentifier id = true ->
  isValidIdentRune (hd eof (id ++ rest)) = true.
Proof.
  intro Hid. destruct (isIdentifier_inv _ Hid) as (Hne & Hall & _).
  destruct id as [|c id]; [congruence|]. inversion Hall; subst. assumption.
Qed.

(** ** [Next], token by token *)

Section LexerFacts.

Variable N : nat.

(** [Next] starts with a [read]: it only depends on what is pending. *)
Lemma Next_pending s1 s2 : pending s1 = pending s2 -> Next N s1 = Next N s2.
Proof.
  intro H. unfold Next, bind, read, ReadRune. rewrite H. reflexivity.
Qed.

Lemma Next_eof s :
  pending s = [] ->
  exists s', Next N s = Some ((EOF, []), s') /\ pending s' = [].
Proof.
  intro Hp. unfold Next, bind. rewrite (read_nil _ Hp). simpl.
  eexists. split; reflexivity.
Qed.

Lemma Next_comma s rest :
  pending s = chr "," :: rest ->
  exists s', Next N s = Some ((COMMA, runes ","), s') /\ pending s' = rest.
Proof.
  intro Hp. unfold Next, bind. rewrite (read_cons _ _ _ Hp). simpl.
  eexists. split; reflexivity.
Qed.

Lemma Next_opening s rest :
  pending s = chr "(" :: rest ->
  exists s', Next N s = Some ((OPENING_BRACKET, runes "("), s') /\
             pending s' = rest.
Proof.
  intro Hp. unfold Next, bind. rewrite (read_cons _ _ _ Hp). simpl.
  eexists. split; reflexivity.
Qed.

Lemma Next_closing s rest :
  pending s = chr ")" :: rest ->
  exists s', Next N s = Some ((CLOSING_BRACKET, runes ")"), s') /\
             pending s' = rest.
Proof.
  intro Hp. unfold Next, bind. rewrite (read_cons _ _ _ Hp). simpl.
  eexists. split; reflexivity.
Qed.

Lemma Next_equal_equal s rest :
  pending s = chr "=" :: chr "=" :: rest ->
  exists s', Next N s = Some ((EQUAL, runes "=="), s') /\ pending s' = rest.
Proof.
  intro Hp. unfold Next, bind. rewrite (read_cons _ _ _ Hp). simpl.
  eexists. split; reflexivity.
Qed.

(** A single ['=']: the literal is the rune that follows it. *)
Lemma Next_equal s rest :
  pending s = chr "=" :: rest ->
  hd eof rest <> chr "=" ->
  exists s', Next N s = Some ((EQUAL, [hd eof rest]), s') /\ pending s' = rest.
Proof.
  intros Hp Hne. unfold Next, bind. rewrite (read_cons _ _ _ Hp). simpl.
  destruct rest as [|c r]; simpl in *.
  - eexists. split; reflexivity.
  - apply Z.eqb_neq in Hne. unfold read, ReadRune. simpl. rewrite Hne. simpl.
    eexists. split; reflexivity.
Qed.

Lemma Next_whitespace s ws rest :
  pending s = ws ++ rest ->
  ws <> [] ->
  Forall (fun c => isWhitespace c = true) ws ->
  stops isWhitespace rest ->
  (List.length (pending s) < N)%nat ->
  exists s', Next N s = Some ((WS, ws), s') /\ pending s' = rest.
Proof.
  intros Hp Hne Hws Hstop HN. destruct ws as [|c ws]; [congruence|].
  inversion Hws as [|? ? Hc Hws']; subst.
  destruct (stops_endsRun _ _ Hstop) as [Hend Hafter].
  simpl in Hp. unfold Next, bind. rewrite (read_cons _ _ _ Hp), Hc.
  unfold unread, UnreadRune, scanWhitespace, bind. simpl.
  destruct (scanWhitespace_loop_exact ws N [c] rest
              {| pending := ws ++ rest; lastRune := Some c |})
    as [s' [E Hs']]; auto.
  { rewrite Hp in HN. simpl in HN. rewrite length_app in HN. lia. }
  rewrite E. simpl. exists s'. rewrite Hs', Hafter. auto.
Qed.

(** A run of identifier runes is one token: a keyword or an [IDENT], with
    the run as its literal. *)
Lemma Next_run s text rest :
  pending s = text ++ rest ->
  text <> [] ->
  Forall (fun c => isValidIdentRune c = true) text ->
  endsRun isValidIdentRune rest = true ->
  (List.length (pending s) < N)%nat ->
  exists s', Next N s = Some ((keywordToken text, text), s') /\
             pending s' = afterRun rest.
Proof.
  intros Hp Hne Hid Hend HN. destruct text as [|c text]; [congruence|].
  inversion Hid as [|? ? Hc Hid']; subst.
  simpl in Hp. unfold Next, bind. rewrite (read_cons _ _ _ Hp).
  rewrite (ident_not_ws _ Hc), Hc.
  unfold unread, UnreadRune, scanIdent, bind. simpl.
  destruct (scanIdent_loop_exact text N [c] rest
              {| pending := text ++ rest; lastRune := Some c |})
    as [s' [E Hs']]; auto.
  { rewrite Hp in HN. simpl in HN. rewrite length_app in HN. lia. }
  change ([c] ++ text) with (c :: text) in E.
  rewrite E, keyword_switch.
  exists s'. split; [|exact Hs'].
  destruct (keywordToken_cases (c :: text)) as [K|[K|K]]; rewrite K;
    reflexivity.
Qed.

Lemma Next_ident s text rest :
  pending s = text ++ rest ->
  text <> [] ->
  Forall (fun c => isValidIdentRune c = true) text ->
  stops isValidIdentRune rest ->
  (List.length (pending s) < N)%nat ->
  exists s', Next N s = Some ((keywordToken text, text), s') /\
             pending s' = rest.
Proof.
  intros Hp Hne Hid Hstop HN.
  destruct (stops_endsRun _ _ Hstop) as [Hend Hafter].
  destruct (Next_run s text rest Hp Hne Hid Hend HN) as [s' [E Hs']].
  exists s'. split; [exact E | congruence].
Qed.

Lemma Next_identifier s id rest :
  pending s = id ++ rest ->
  isIdentifier id = true ->
  stops isValidIdentRune rest ->
  (List.length (pending s) < N)%nat ->
  exists s', Next N s = Some ((IDENT, id), s') /\ pending s' = rest.
Proof.
  intros Hp Hid Hstop HN.
  destruct (isIdentifier_inv _ Hid) as (Hne & Hall & Hk).
  rewrite <- Hk. now apply Next_ident.
Qed.

Ltac token_done :=
  eexists; eexists; eexists; (split; [reflexivity|]); simpl;
  (split; [auto with lexer|]); (split; [auto|]); intros; discriminate.

(** [Next] always returns, and what it leaves pending is what remains of the
    input; it consumes at least one rune unless it returns [EOF]; an [IDENT]
    with an empty literal can only come from a quoted scan. *)
Lemma Next_total s :
  (List.length (pending s) < N)%nat ->
  exists tok lit s',
    Next N s = Some ((tok, lit), s') /\
    remains (pending s') (pending s) /\
    (tok = EOF \/ (List.length (pending s') < List.length (pending s))%nat) /\
    (tok = IDENT -> lit = [] -> In dquote (pending s)).
Proof.
  intro HN. destruct (pending s) as [|c l] eqn:Hp.
  - destruct (Next_eof s Hp) as [s' [E Hs']].
    exists EOF, [], s'. rewrite Hs'. repeat split; auto with lexer.
    intros; discriminate.
  - unfold Next, bind. rewrite (read_cons _ _ _ Hp).
    destruct (isWhitespace c) eqn:Hws.
    { unfold unread, UnreadRune, scanWhitespace, bind. simpl.
      destruct (scanWhitespace_loop_total N [c]
                  {| pending := l; lastRune := Some c |})
        as (w & s' & E & R); [simpl in *; lia|].
      rewrite E. simpl. exists WS, (c :: w), s'. simpl in R.
      split; [reflexivity|]. split; [auto with lexer|].
      split; [right; apply remains_length in R; simpl; lia|].
      intros; discriminate. }
    destruct (isValidIdentRune c) eqn:Hid.
    { unfold unread, UnreadRune, scanIdent, bind. simpl.
      destruct (scanIdent_loop_total N [c]
                  {| pending := l; lastRune := Some c |})
        as (w & s' & E & R); [simpl in *; lia|].
      change ([c] ++ w) with (c :: w) in E.
      rewrite E, keyword_switch. simpl in R.
      exists (keywordToken (c :: w)), (c :: w), s'.
      split.
      { destruct (keywordToken_cases (c :: w)) as [K|[K|K]]; rewrite K;
          reflexivity. }
      split; [auto with lexer|].
      split; [right; apply remains_length in R; simpl; lia|].
      intros; discriminate. }
    destruct (c =? dquote) eqn:Hq.
    { apply Z.eqb_eq in Hq. subst c. unfold scanQuotedIdent, bind.
      destruct (scanQuotedIdent_loop_spec l N [] 0
                  {| pending := l; lastRune := Some dquote |})
        as (w & tail & s' & E & Hl & Hn & Hesc & Hclose);
        [reflexivity | simpl in *; lia |].
      rewrite E. simpl. exists IDENT, w, s'.
      assert (R : remains (pending s') l).
      { destruct Hclose as [[Ht Hs']|[Ht|[Ht _]]]; subst tail.
        - rewrite Hs'. exists l. now rewrite app_nil_r.
        - exists (w ++ [eof]). rewrite <- app_assoc. exact Hl.
        - exists (w ++ [dquote]). rewrite <- app_assoc. exact Hl. }
      split; [reflexivity|]. split; [auto with lexer|].
      split; [right; apply remains_length in R; simpl; lia|].
      intros; left; reflexivity. }
    destruct (c =? eof) eqn:He; [simpl; token_done|].
    destruct (c =? chr "!") eqn:Hx.
    { destruct l as [|d l']; unfold read at 1, ReadRune; simpl;
        [token_done|].
      destruct (d =? chr "="); simpl; token_done. }
    destruct (c =? chr "=") eqn:Hequal.
    { destruct l as [|d l']; unfold read at 1, ReadRune; simpl;
        [token_done|].
      destruct (d =? chr "="); simpl; token_done. }
    destruct (c =? chr ",");
      [|destruct (c =? chr "("); [|destruct (c =? chr ")")]];
      simpl; token_done.
Qed.

End LexerFacts.

(** * Facts about the parser *)

Section ParserFacts.

Variable N : nat.

(** ** [next] *)

Lemma next_loop_done k tl s :
  (1 <= k)%nat -> fst tl <> WS -> next_loop N k tl s = Some (tl, s).
Proof.
  intros Hk H. destruct k as [|k]; [lia|]. simpl.
  destruct tl as [[] lit]; simpl in *; try reflexivity.
  congruence.
Qed.

Lemma next_loop_WS k lit s :
  next_loop N (S k) (WS, lit) s =
  match Next N s with
  | Some (tl, s') => next_loop N k tl s'
  | None => None
  end.
Proof. reflexivity. Qed.

(** [next] returns the first token after the leading whitespace. *)
Lemma next_of_Next s ws rest r rest' :
  pending s = ws ++ rest ->
  Forall (fun c => isWhitespace c = true) ws ->
  stops isWhitespace rest ->
  (List.length (pending s) < N)%nat ->
  fst r <> WS ->
  (forall s0, pending s0 = rest ->
     exists s', Next N s0 = Some (r, s') /\ pending s' = rest') ->
  exists s', next N s = Some (r, s') /\ pending s' = rest'.
Proof.
  intros Hp Hws Hstop HN Hr HNext. unfold next, scan, bind.
  destruct ws as [|c ws].
  - destruct (HNext s Hp) as [s' [E Hs']]. rewrite E.
    rewrite next_loop_done; [|lia|assumption].
    exists s'. auto.
  - destruct (Next_whitespace N s (c :: ws) rest) as [s1 [E1 Hs1]];
      auto; [discriminate|].
    rewrite E1. rewrite Hp in HN. simpl in HN.
    replace (next_loop N N) with (next_loop N (S (N - 1)))
      by (f_equal; lia).
    rewrite next_loop_WS.
    destruct (HNext s1 Hs1) as [s' [E Hs']]. rewrite E.
    rewrite next_loop_done; [|lia|assumption]. exists s'. auto.
Qed.

Lemma Token_eqb_eq a b : Token_eqb a b = true -> a = b.
Proof. destruct a, b; simpl; congruence. Qed.

Lemma Token_eqb_neq a b : Token_eqb a b = false -> a <> b.
Proof. intros H ->. destruct b; discriminate H. Qed.

Lemma next_loop_total k : forall tl s,
  (List.length (pending s) < N)%nat ->
  (1 <= k)%nat ->
  (fst tl = WS -> (List.length (pending s) + 2 <= k)%nat) ->
  exists tok lit s',
    next_loop N k tl s = Some ((tok, lit), s') /\
    remains (pending s') (pending s) /\
    tok <> WS /\
    (fst tl <> WS -> (tok, lit) = tl /\ s' = s) /\
    (fst tl = WS ->
       (tok = EOF \/
        (List.length (pending s') < List.length (pending s))%nat) /\
       (tok = IDENT -> lit = [] -> In dquote (pending s))).
Proof.
  induction k as [|k IH]; intros [tok0 lit0] s HN Hk Hws; [lia|].
  destruct (Token_eqb tok0 WS) eqn:E0.
  - apply Token_eqb_eq in E0. subst tok0.
    rewrite next_loop_WS. specialize (Hws eq_refl).
    destruct (Next_total N s HN) as (tok & lit & s1 & E & R & Hadv & Hid).
    rewrite E.
    destruct (IH (tok, lit) s1)
      as (tok' & lit' & s' & E' & R' & Hne & Hsame & Hskip).
    { apply remains_length in R. lia. }
    { lia. }
    { simpl. intros ->. destruct Hadv as [Hadv|Hadv]; [discriminate|]. lia. }
    exists tok', lit', s'. split; [exact E'|].
    split; [eapply remains_trans; eassumption|]. split; [exact Hne|].
    split; [simpl; congruence|]. intros _.
    destruct (Token_eqb tok WS) eqn:E1.
    + apply Token_eqb_eq in E1. subst tok.
      destruct (Hskip eq_refl) as [Hadv' Hid'].
      destruct Hadv as [Hadv|Hadv]; [discriminate|].
      split.
      * destruct Hadv' as [Hadv'|Hadv']; [auto | right; lia].
      * intros Ht Hl. eapply remains_In; [exact R | auto].
    + apply Token_eqb_neq in E1.
      destruct (Hsame E1) as [Heq Hs]. injection Heq as -> ->. subst s'.
      auto.
  - apply Token_eqb_neq in E0.
    rewrite next_loop_done; [|lia|assumption].
    exists tok0, lit0, s. split; [reflexivity|].
    split; [apply remains_refl|]. split; [assumption|].
    split; [auto|]. simpl. intros; contradiction.
Qed.

(** [next] always returns a token that is not [WS]; it consumes at least one
    rune unless it returns [EOF]. *)
Lemma next_total s :
  (List.length (pending s) < N)%nat ->
  exists tok lit s',
    next N s = Some ((tok, lit), s') /\
    remains (pending s') (pending s) /\
    tok <> WS /\
    (tok = EOF \/ (List.length (pending s') < List.length (pending s))%nat) /\
    (tok = IDENT -> lit = [] -> In dquote (pending s)).
Proof.
  intro HN. unfold next, scan, bind.
  destruct (Next_total N s HN) as (tok & lit & s1 & E & R & Hadv & Hid).
  rewrite E.
  destruct (next_loop_total N (tok, lit) s1)
    as (tok' & lit' & s' & E' & R' & Hne & Hsame & Hskip).
  { apply remains_length in R. lia. }
  { lia. }
  { simpl. intros ->. destruct Hadv as [Hadv|Hadv]; [discriminate|]. lia. }
  exists tok', lit', s'. split; [exact E'|].
  split; [eapply remains_trans; eassumption|]. split; [exact Hne|].
  destruct (Token_eqb tok WS) eqn:E1.
  - apply Token_eqb_eq in E1. subst tok.
    destruct (Hskip eq_refl) as [Hadv' Hid'].
    destruct Hadv as [Hadv|Hadv]; [discriminate|].
    split.
    + destruct Hadv' as [Hadv'|Hadv']; [auto | right; lia].
    + intros Ht Hl. eapply remains_In; [exact R | auto].
  - apply Token_eqb_neq in E1.
    destruct (Hsame E1) as [Heq Hs]. injection Heq as -> ->. subst s'.
    auto.
Qed.

Lemma stops_ws_comma rest : stops isWhitespace (chr "," :: rest).
Proof. split; [reflexivity | discriminate]. Qed.

Lemma stops_ws_ident id rest :
  id <> [] -> Forall (fun c => isValidIdentRune c = true) id ->
  stops isWhitespace (id ++ rest).
Proof.
  intros Hne Hid. destruct id as [|c id]; [congruence|].
  inversion Hid; subst. split; [now apply ident_not_ws|].
  now apply isValidIdentRune_not_eof.
Qed.

Lemma next_identifier s ws id rest :
  pending s = ws ++ id ++ rest ->
  Forall (fun c => isWhitespace c = true) ws ->
  isIdentifier id = true ->
  stops isValidIdentRune rest ->
  (List.length (pending s) < N)%nat ->
  exists s', next N s = Some ((IDENT, id), s') /\ pending s' = rest.
Proof.
  intros Hp Hws Hid Hstop HN.
  destruct (isIdentifier_inv _ Hid) as (Hne & Hall & _).
  apply (next_of_Next s ws (id ++ rest)); auto using stops_ws_ident.
  - discriminate.
  - intros s0 H0. apply Next_identifier; auto.
    rewrite H0. rewrite Hp, length_app in HN. lia.
Qed.

Lemma next_comma s ws rest :
  pending s = ws ++ chr "," :: rest ->
  Forall (fun c => isWhitespace c = true) ws ->
  (List.length (pending s) < N)%nat ->
  exists s', next N s = Some ((COMMA, runes ","), s') /\ pending s' = rest.
Proof.
  intros Hp Hws HN.
  apply (next_of_Next s ws (chr "," :: rest)); auto using stops_ws_comma.
  - discriminate.
  - intros s0 H0. now apply Next_comma.
Qed.

Lemma next_eof s ws :
  pending s = ws ->
  Forall (fun c => isWhitespace c = true) ws ->
  (List.length (pending s) < N)%nat ->
  exists s', next N s = Some ((EOF, []), s') /\ pending s' = [].
Proof.
  intros Hp Hws HN.
  apply (next_of_Next s ws []); auto.
  - now rewrite app_nil_r.
  - exact I.
  - discriminate.
  - intros s0 H0. now apply Next_eof.
Qed.

(** ** One iteration of the loop of [Parse], by the tokens it reads *)

Lemma Parse_loop_comma k sel s lit s1 :
  next N s = Some ((COMMA, lit), s1) ->
  Parse_loop N (S k) sel s = Parse_loop N k sel s1.
Proof. intro H. simpl. unfold bind. rewrite H. reflexivity. Qed.

Lemma Parse_loop_eof k sel s lit s1 :
  next N s = Some ((EOF, lit), s1) ->
  Parse_loop N (S k) sel s = Some ((sel, None), s1).
Proof. intro H. simpl. unfold bind. rewrite H. reflexivity. Qed.

Lemma Parse_loop_illegal k sel s lit s1 :
  next N s = Some ((ILLEGAL, lit), s1) ->
  Parse_loop N (S k) sel s = Some ((sel, errors_New "illegal token"), s1).
Proof. intro H. simpl. unfold bind. rewrite H. reflexivity. Qed.

(** A token for which the outer switch has no case is dropped. *)
Lemma Parse_loop_ignored k sel s tok lit s1 :
  next N s = Some ((tok, lit), s1) ->
  startsNoClause tok = true ->
  Parse_loop N (S k) sel s = Parse_loop N k sel s1.
Proof.
  intros H Htok. simpl. unfold bind. rewrite H.
  destruct tok; try discriminate Htok; reflexivity.
Qed.

Lemma Parse_loop_not_exists k sel s lit s1 req err s2 :
  next N s = Some ((EXCLAMATION_MARK, lit), s1) ->
  parseNotExistsRequirement N s1 = Some ((req, err), s2) ->
  Parse_loop N (S k) sel s =
  match err with
  | Some _ => Some ((sel, err), s2)
  | None => Parse_loop N k (append sel req) s2
  end.
Proof.
  intros H H1. simpl. unfold bind. rewrite H. simpl. rewrite H1.
  destruct err; reflexivity.
Qed.

Lemma Parse_loop_clause k sel s key s1 tok lit s2 p req err s3 :
  next N s = Some ((IDENT, key), s1) ->
  next N s1 = Some ((tok, lit), s2) ->
  clauseParser tok = Some p ->
  p N key s2 = Some ((req, err), s3) ->
  Parse_loop N (S k) sel s =
  match err with
  | Some _ => Some ((sel, err), s3)
  | None => Parse_loop N k (append sel req) s3
  end.
Proof.
  intros H H1 Hp H2. simpl. unfold bind. rewrite H. simpl. rewrite H1.
  destruct tok; try discriminate Hp; injection Hp as <-; rewrite H2;
    destruct err; reflexivity.
Qed.

Lemma Parse_loop_exists k sel s key s1 tok lit s2 :
  next N s = Some ((IDENT, key), s1) ->
  next N s1 = Some ((tok, lit), s2) ->
  tok = COMMA \/ tok = EOF ->
  Parse_loop N (S k) sel s =
  Parse_loop N k (append sel (existsRequirement key)) s2.
Proof.
  intros H H1 Htok. simpl. unfold bind. rewrite H. simpl. rewrite H1.
  destruct Htok; subst tok; reflexivity.
Qed.

Lemma Parse_loop_unexpected k sel s key s1 tok lit s2 :
  next N s = Some ((IDENT, key), s1) ->
  next N s1 = Some ((tok, lit), s2) ->
  clauseParser tok = None ->
  tok <> COMMA -> tok <> EOF ->
  Parse_loop N (S k) sel s =
  Some ((sel, Errorf "unexpected token '" lit "'"), s2).
Proof.
  intros H H1 Hp Hc He. simpl. unfold bind. rewrite H. simpl. rewrite H1.
  destruct tok; try discriminate Hp; try congruence; reflexivity.
Qed.

(** ** The sub-parsers return *)

Lemma parseIdentList_loop_closing k acc s lit s1 :
  next N s = Some ((CLOSING_BRACKET, lit), s1) ->
  parseIdentList_loop N (S k) acc s = Some ((acc, None), s1).
Proof. intro H. simpl. unfold bind. rewrite H. reflexivity. Qed.

Lemma parseIdentList_loop_total k : forall acc s,
  (List.length (pending s) < k)%nat ->
  (List.length (pending s) < N)%nat ->
  exists l err s',
    parseIdentList_loop N k acc s = Some ((l, err), s') /\
    remains (pending s') (pending s).
Proof.
  induction k as [|k IH]; intros acc s Hk HN; [lia|].
  simpl. unfold bind.
  destruct (next_total s HN) as (tok & lit & s1 & E & R & Hne & Hadv & _).
  rewrite E.
  assert (Hrec : tok <> EOF -> forall acc',
            exists l err s',
              parseIdentList_loop N k acc' s1 = Some ((l, err), s') /\
              remains (pending s') (pending s)).
  { intros Ht acc'. destruct Hadv as [Hadv|Hadv]; [contradiction|].
    destruct (IH acc' s1) as (l & err & s' & E' & R'); [lia | lia |].
    exists l, err, s'. split; [exact E'|]. eapply remains_trans; eassumption. }
  destruct tok;
    try (eexists; eexists; eexists; split; [reflexivity | exact R]);
    apply Hrec; discriminate.
Qed.

Lemma parseInRequirement_total key s :
  (List.length (pending s) < N)%nat ->
  exists req err s',
    parseInRequirement N key s = Some ((req, err), s') /\
    remains (pending s') (pending s) /\
    Key req = key.
Proof.
  intro HN. unfold parseInRequirement, bind.
  destruct (next_total s HN) as (tok & lit & s1 & E & R & Hne & Hadv & _).
  rewrite E.
  destruct (Token_eqb tok OPENING_BRACKET) eqn:Et.
  - apply Token_eqb_eq in Et. subst tok. unfold parseIdentList.
    destruct (parseIdentList_loop_total N [] s1) as (l & err & s' & E' & R').
    { apply remains_length in R. lia. }
    { apply remains_length in R. lia. }
    rewrite E'. destruct err; eexists; eexists; eexists;
      (split; [reflexivity|]);
      (split; [eapply remains_trans; eassumption | reflexivity]).
  - destruct tok; try discriminate Et;
      eexists; eexists; eexists; (split; [reflexivity|]);
      (split; [exact R | reflexivity]).
Qed.

(** The sub-parsers of the binary operators differ in the operation and in
    the message only. *)
Ltac binary_total E R :=
  unfold parseEqualRequirement, parseNotEqualRequirement,
    parseLowerThanRequirement, parseLowerThanEqualRequirement,
    parseGreaterThanRequirement, parseGreaterThanEqualRequirement, bind;
  rewrite E;
  match goal with
  | |- context [match ?tok with _ => _ end] =>
      destruct tok; eexists; eexists; eexists; (split; [reflexivity|]);
      (split; [exact R|]); simpl; intros; try discriminate; reflexivity
  end.

(** Each sub-parser returns, and a requirement it returns without an error
    carries the key it was given. *)
Lemma clauseParser_total tok p key s :
  clauseParser tok = Some p ->
  (List.length (pending s) < N)%nat ->
  exists req err s',
    p N key s = Some ((req, err), s') /\
    remains (pending s') (pending s) /\
    (err = None -> Key req = key).
Proof.
  intros Hp HN.
  destruct (next_total s HN) as (tok1 & lit & s1 & E & R & Hne & Hadv & _).
  destruct tok; try discriminate Hp; injection Hp as <-;
    try binary_total E R.
  - (* IN *)
    destruct (parseInRequirement_total key s HN)
      as (req & err & s' & E' & R' & K).
    exists req, err, s'. auto.
  - (* NOT *)
    unfold parseNotInRequirement, bind. rewrite E.
    destruct (Token_eqb tok1 IN) eqn:Et.
    + apply Token_eqb_eq in Et. subst tok1.
      destruct (parseInRequirement_total key s1)
        as (req & err & s' & E' & R' & K).
      { apply remains_length in R. lia. }
      rewrite E'. destruct err; eexists; eexists; eexists;
        (split; [reflexivity|]);
        (split; [eapply remains_trans; eassumption|]);
        simpl; intros; try discriminate; exact K.
    + destruct tok1; try discriminate Et;
        eexists; eexists; eexists; (split; [reflexivity|]);
        (split; [exact R|]); intros; discriminate.
Qed.

Lemma parseNotExistsRequirement_total s :
  (List.length (pending s) < N)%nat ->
  exists req err s',
    parseNotExistsRequirement N s = Some ((req, err), s') /\
    remains (pending s') (pending s) /\
    (err = None -> Key req = [] -> In dquote (pending s)).
Proof.
  intro HN. unfold parseNotExistsRequirement, bind.
  destruct (next_total s HN) as (tok & lit & s1 & E & R & Hne & Hadv & Hid).
  rewrite E.
  destruct tok; eexists; eexists; eexists; (split; [reflexivity|]);
    (split; [exact R|]); simpl; intros; try discriminate; auto.
Qed.

(** ** [Parse] returns *)

Lemma keysNonEmpty_append sel req :
  keysNonEmpty sel -> Key req <> [] -> keysNonEmpty (append sel req).
Proof.
  unfold keysNonEmpty, append. simpl. intros H Hk.
  apply Forall_app. split; [exact H|]. constructor; [exact Hk | constructor].
Qed.

(** The loop of [Parse] returns, and keeps every key non-empty as long as no
    double quote is pending. *)
Lemma Parse_loop_total k : forall sel s,
  (List.length (pending s) < k)%nat ->
  (List.length (pending s) < N)%nat ->
  exists sel' err s',
    Parse_loop N k sel s = Some ((sel', err), s') /\
    (~ In dquote (pending s) -> keysNonEmpty sel -> keysNonEmpty sel').
Proof.
  induction k as [|k IH]; intros sel s Hk HN; [lia|].
  destruct (next_total s HN) as (tok & lit & s1 & E & R & Hne & Hadv & Hid).
  pose proof (remains_length _ _ R) as Hlen.
  assert (Hcont : forall s2 sel0,
            remains (pending s2) (pending s) ->
            (List.length (pending s2) < List.length (pending s))%nat ->
            (~ In dquote (pending s) -> keysNonEmpty sel ->
             keysNonEmpty sel0) ->
            exists sel' err s',
              Parse_loop N k sel0 s2 = Some ((sel', err), s') /\
              (~ In dquote (pending s) -> keysNonEmpty sel ->
               keysNonEmpty sel')).
  { intros s2 sel0 R0 Hlt H0.
    destruct (IH sel0 s2) as (sel' & err & s' & E' & K'); [lia | lia |].
    exists sel', err, s'. split; [exact E'|]. intros Hnq Hsel.
    apply K'; [|auto]. intro H. apply Hnq. eapply remains_In; eassumption. }
  destruct (startsNoClause tok) eqn:Hs.
  { rewrite (Parse_loop_ignored k sel s tok lit s1 E Hs).
    destruct Hadv as [->|Hadv]; [discriminate Hs|]. apply Hcont; auto. }
  destruct tok; try discriminate Hs.
  - (* ILLEGAL *)
    rewrite (Parse_loop_illegal k sel s lit s1 E).
    eexists; eexists; eexists. split; [reflexivity | auto].
  - (* EOF *)
    rewrite (Parse_loop_eof k sel s lit s1 E).
    eexists; eexists; eexists. split; [reflexivity | auto].
  - (* IDENT *)
    destruct Hadv as [Hadv|Hadv]; [discriminate|].
    destruct (next_total s1) as (tok2 & lit2 & s2 & E2 & R2 & _ & _ & _);
      [lia|].
    pose proof (remains_length _ _ R2) as Hlen2.
    destruct (clauseParser tok2) as [p|] eqn:Hp.
    + destruct (clauseParser_total tok2 p lit s2 Hp)
        as (req & err & s3 & E3 & R3 & K3); [lia|].
      rewrite (Parse_loop_clause k sel s lit s1 tok2 lit2 s2 p req err s3
                 E E2 Hp E3).
      pose proof (remains_length _ _ R3) as Hlen3.
      destruct err as [e|].
      * eexists; eexists; eexists. split; [reflexivity | auto].
      * apply Hcont; [eauto using remains_trans | lia |].
        intros Hnq Hsel. apply keysNonEmpty_append; [exact Hsel|].
        rewrite (K3 eq_refl). auto.
    + assert (Hcase : (tok2 = COMMA \/ tok2 = EOF) \/
                      (tok2 <> COMMA /\ tok2 <> EOF))
        by (destruct tok2; auto; right; split; discriminate).
      destruct Hcase as [Hcase|[Hc He]].
      * rewrite (Parse_loop_exists k sel s lit s1 tok2 lit2 s2 E E2 Hcase).
        apply Hcont; [eauto using remains_trans | lia |].
        intros Hnq Hsel. apply keysNonEmpty_append; [exact Hsel|].
        simpl. auto.
      * rewrite (Parse_loop_unexpected k sel s lit s1 tok2 lit2 s2
                   E E2 Hp Hc He).
        eexists; eexists; eexists. split; [reflexivity | auto].
  - (* COMMA *)
    rewrite (Parse_loop_comma k sel s lit s1 E).
    destruct Hadv as [Hadv|Hadv]; [discriminate|]. apply Hcont; auto.
  - (* EXCLAMATION_MARK *)
    destruct Hadv as [Hadv|Hadv]; [discriminate|].
    destruct (parseNotExistsRequirement_total s1)
      as (req & err & s2 & E2 & R2 & K2); [lia|].
    rewrite (Parse_loop_not_exists k sel s lit s1 req err s2 E E2).
    pose proof (remains_length _ _ R2) as Hlen2.
    destruct err as [e|].
    + eexists; eexists; eexists. split; [reflexivity | auto].
    + apply Hcont; [eauto using remains_trans | lia |].
      intros Hnq Hsel. apply keysNonEmpty_append; [exact Hsel|].
      intro Hk0. apply Hnq. eapply remains_In; [exact R | auto].
Qed.

End ParserFacts.

(** [ParseString] returns on every input. *)
Theorem Parse_total (input : GoString) :
  exists selector err, ParseString input = Some (selector, err).
Proof.
  unfold ParseString, Parse.
  destruct (Parse_loop_total (S (List.length (pending (NewLexer input))))
              (S (List.length (pending (NewLexer input))))
              {| Requirements := [] |} (NewLexer input))
    as (sel & err & s' & E & _); [lia | lia |].
  rewrite E. eauto.
Qed.

(** * Lists of bare identifiers *)

Lemma separator_split l :
  forallb isSeparatorRune l = true ->
  Forall (fun c => isWhitespace c = true) l \/
  exists ws l', l = ws ++ chr "," :: l' /\
                Forall (fun c => isWhitespace c = true) ws /\
                forallb isSeparatorRune l' = true.
Proof.
  induction l as [|c l IH]; intro H; [left; constructor|].
  simpl in H. apply andb_true_iff in H. destruct H as [Hc Hl].
  unfold isSeparatorRune in Hc. apply orb_true_iff in Hc.
  destruct Hc as [Hc|Hc].
  - destruct (IH Hl) as [Hall|(ws & l' & -> & Hws & Hl')].
    + left. constructor; assumption.
    + right. exists (c :: ws), l'. repeat split; auto.
  - apply Z.eqb_eq in Hc. subst c. right. exists [], l. repeat split; auto.
Qed.

Lemma whitespace_no_comma l :
  Forall (fun c => isWhitespace c = true) l ->
  existsb (fun c => c =? chr ",") l = false.
Proof.
  induction 1 as [|c l Hc _ IH]; [reflexivity|]. simpl. rewrite IH.
  destruct (Z.eqb_spec c (chr ",")) as [->|]; [discriminate Hc | reflexivity].
Qed.

Lemma separator_not_ident c :
  isSeparatorRune c = true -> isValidIdentRune c = false /\ c <> eof.
Proof.
  unfold isSeparatorRune. intro H. apply orb_true_iff in H.
  destruct H as [H|H].
  - split; [|now apply isWhitespace_not_eof].
    destruct (isValidIdentRune c) eqn:E; [|reflexivity].
    apply ident_not_ws in E. congruence.
  - apply Z.eqb_eq in H. subst c. split; [reflexivity | discriminate].
Qed.

Lemma identifierList_lead lead items :
  identifierList lead items = lead ++ identifierList [] items.
Proof. destruct items as [|[id sep] items]; simpl; now rewrite ?app_nil_r. Qed.

(** An identifier of the list ends where its separator starts, or where the
    input ends. *)
Lemma stops_ident_items sep items :
  forallb isSeparatorRune sep = true ->
  match items with
  | [] => true
  | _ :: _ => existsb (fun c => c =? chr ",") sep
  end = true ->
  stops isValidIdentRune (identifierList sep items).
Proof.
  intros Hsep Hcomma. destruct sep as [|c sep].
  - destruct items as [|[id sep'] items]; [exact I | discriminate Hcomma].
  - rewrite identifierList_lead. simpl in *.
    apply andb_true_iff in Hsep. destruct Hsep as [Hc _].
    now apply separator_not_ident.
Qed.

Section IdentifierLists.

Variable N : nat.

(** Leading commas and whitespace are skipped by the loop. *)
Lemma Parse_loop_skip tail sel result :
  (forall ws s k,
     Forall (fun c => isWhitespace c = true) ws ->
     pending s = ws ++ tail ->
     (List.length (pending s) < k)%nat ->
     (List.length (pending s) < N)%nat ->
     exists s', Parse_loop N k sel s = Some (result, s')) ->
  forall n lead s k,
    (List.length lead <= n)%nat ->
    forallb isSeparatorRune lead = true ->
    pending s = lead ++ tail ->
    (List.length (pending s) < k)%nat ->
    (List.length (pending s) < N)%nat ->
    exists s', Parse_loop N k sel s = Some (result, s').
Proof.
  intros HQ. induction n as [|n IH]; intros lead s k Hn Hlead Hp Hk HN.
  - destruct lead; [|simpl in Hn; lia].
    apply (HQ [] s k); auto.
  - destruct (separator_split lead Hlead) as [Hall|(ws & l' & -> & Hws & Hl')].
    + apply (HQ lead s k); auto.
    + rewrite <- app_assoc in Hp. simpl in Hp.
      destruct (next_comma N s ws (l' ++ tail)) as [s1 [E Hs1]]; auto.
      destruct k as [|k]; [lia|].
      rewrite (Parse_loop_comma N k sel s _ s1 E).
      assert (Hlen : List.length (pending s) =
                     (List.length ws + S (List.length (pending s1)))%nat)
        by (rewrite Hp, Hs1, length_app; reflexivity).
      rewrite length_app in Hn. simpl in Hn.
      apply (IH l' s1 k); auto; lia.
Qed.

(** After an identifier of the list the parser reads a comma, or the end of
    the input. *)
Lemma next_after_identifier sep items s1 :
  forallb isSeparatorRune sep = true ->
  match items with
  | [] => true
  | _ :: _ => existsb (fun c => c =? chr ",") sep
  end = true ->
  pending s1 = identifierList sep items ->
  (List.length (pending s1) < N)%nat ->
  exists sep' s2 tok lit,
    next N s1 = Some ((tok, lit), s2) /\
    (tok = COMMA \/ tok = EOF) /\
    forallb isSeparatorRune sep' = true /\
    pending s2 = identifierList sep' items /\
    (List.length (pending s2) <= List.length (pending s1))%nat.
Proof.
  intros Hsep Hcomma Hs1 HN.
  destruct (separator_split sep Hsep) as [Hallws|(ws' & l' & -> & Hws' & Hl')].
  - destruct items as [|it items'].
    + simpl in Hs1.
      destruct (next_eof N s1 sep) as [s2 [E2 Hs2]]; auto.
      exists [], s2, EOF, []. simpl. rewrite Hs2. simpl.
      repeat split; auto. lia.
    + rewrite (whitespace_no_comma _ Hallws) in Hcomma. discriminate Hcomma.
  - rewrite identifierList_lead, <- app_assoc in Hs1. simpl in Hs1.
    destruct (next_comma N s1 ws' (l' ++ identifierList [] items))
      as [s2 [E2 Hs2]]; auto.
    exists l', s2, COMMA, (runes ","). rewrite identifierList_lead.
    repeat split; auto.
    rewrite Hs1, Hs2, !length_app. simpl. rewrite !length_app. lia.
Qed.

Lemma Parse_loop_identifierList items : forall lead sel s k,
  forallb isSeparatorRune lead = true ->
  wellSeparated items = true ->
  pending s = identifierList lead items ->
  (List.length (pending s) < k)%nat ->
  (List.length (pending s) < N)%nat ->
  exists s',
    Parse_loop N k sel s =
    Some (({| Requirements :=
                Requirements sel ++
                map (fun it => existsRequirement (fst it)) items |}, None), s').
Proof.
  induction items as [|[id sep] items IH];
    intros lead sel s k Hlead Hwf Hp Hk HN.
  - simpl in Hp. rewrite <- (app_nil_r lead) in Hp.
    apply (fun HQ => Parse_loop_skip [] sel _ HQ (List.length lead) lead s k
                       (le_n _) Hlead Hp Hk HN).
    intros ws s0 k0 Hws Hp0 Hk0 HN0. rewrite app_nil_r in Hp0.
    destruct (next_eof N s0 ws) as [s1 [E Hs1]]; auto.
    destruct k0 as [|k0]; [lia|].
    rewrite (Parse_loop_eof N k0 sel s0 _ s1 E). exists s1.
    destruct sel as [reqs]. simpl. now rewrite app_nil_r.
  - simpl in Hp, Hwf.
    apply andb_true_iff in Hwf. destruct Hwf as [Hwf Hitems].
    apply andb_true_iff in Hwf. destruct Hwf as [Hwf Hcomma].
    apply andb_true_iff in Hwf. destruct Hwf as [Hid Hsep].
    destruct (isIdentifier_inv _ Hid) as (Hne & Hall & _).
    apply (fun HQ => Parse_loop_skip (id ++ identifierList sep items) sel _ HQ
                       (List.length lead) lead s k (le_n _) Hlead Hp Hk HN).
    clear dependent s. clear k.
    intros ws s k Hws Hp Hk HN.
    destruct (next_identifier N s ws id (identifierList sep items))
      as [s1 [E Hs1]]; auto using stops_ident_items.
    assert (Hlen : (List.length (pending s1) < List.length (pending s))%nat).
    { rewrite Hs1, Hp, !length_app. destruct id; [congruence | simpl; lia]. }
    destruct k as [|k]; [lia|].
    destruct (next_after_identifier sep items s1 Hsep Hcomma Hs1)
      as (sep' & s2 & tok & lit & E2 & Htok & Hsep' & Hs2 & Hlen2); [lia|].
    rewrite (Parse_loop_exists N k sel s id s1 tok lit s2 E E2 Htok).
    destruct (IH sep' (append sel (existsRequirement id)) s2 k)
      as [s' E']; auto; try lia.
    exists s'. rewrite E'. simpl. now rewrite <- app_assoc.
Qed.

End IdentifierLists.

(** * Single clauses *)

Lemma Parse_equals (op : GoString) key value :
  isIdentifier key = true ->
  isIdentifier value = true ->
  op = runes "=" \/ op = runes "==" ->
  ParseString (key ++ op ++ value) =
  Some ({| Requirements :=
             [{| Key := key; Value := value; Values := [];
                 Operation_ := OperationEquals |}] |}, None).
Proof.
  intros Hkey Hvalue Hop. unfold ParseString, Parse.
  set (input := key ++ op ++ value).
  set (N := S (List.length (pending (NewLexer input)))).
  assert (HN : (List.length input < N)%nat) by (subst N; simpl; lia).
  assert (Hop_len : (List.length input =
                     List.length key + (List.length op + List.length value))%nat)
    by (subst input; now rewrite !length_app).
  destruct (next_identifier N (NewLexer input) [] key (op ++ value))
    as [s1 [E1 Hs1]]; auto.
  { destruct Hop; subst op; split; (reflexivity || discriminate). }
  assert (Hhd : isValidIdentRune (hd eof value) = true).
  { rewrite <- (app_nil_r value). now apply identifier_head. }
  assert (E2 : exists lit s2, next N s1 = Some ((EQUAL, lit), s2) /\
                              pending s2 = value).
  { destruct Hop; subst op.
    - exists [hd eof value].
      apply (next_of_Next N s1 [] (chr "=" :: value)); auto.
      + split; [reflexivity | discriminate].
      + rewrite Hs1. simpl in *. lia.
      + discriminate.
      + intros s0 H0. apply Next_equal; auto.
        intro H. rewrite H in Hhd. discriminate Hhd.
    - exists (runes "==").
      apply (next_of_Next N s1 [] (chr "=" :: chr "=" :: value)); auto.
      + split; [reflexivity | discriminate].
      + rewrite Hs1. simpl in *. lia.
      + discriminate.
      + intros s0 H0. now apply Next_equal_equal. }
  destruct E2 as (lit & s2 & E2 & Hs2).
  destruct (next_identifier N s2 [] value []) as [s3 [E3 Hs3]]; auto.
  { now rewrite app_nil_r. }
  { exact I. }
  { rewrite Hs2. lia. }
  assert (E4 : parseEqualRequirement N key s2 =
               Some (({| Key := key; Value := value; Values := [];
                         Operation_ := OperationEquals |}, None), s3)).
  { unfold parseEqualRequirement, bind. rewrite E3. reflexivity. }
  destruct (next_eof N s3 []) as [s4 [E5 Hs4]]; auto.
  { rewrite Hs3. simpl. lia. }
  assert (Hk : exists k, N = S (S k)).
  { destruct (isIdentifier_inv _ Hkey) as (Hne & _ & _).
    exists (List.length input - 1)%nat. subst N. simpl.
    destruct key; [congruence | simpl in *; lia]. }
  destruct Hk as [k Hk]. rewrite Hk at 2.
  rewrite (Parse_loop_clause N (S k) _ _ key s1 EQUAL lit s2
             parseEqualRequirement _ None s3 E1 E2 eq_refl E4).
  rewrite (Parse_loop_eof N k _ _ _ s4 E5). reflexivity.
Qed.

(** * The claims of the specification *)

(** C1, as the code has it.  [Next] has no case for the ordering operators:
    a ['>'] or a ['<'] is an [ILLEGAL] token whatever follows it, and
    [foo >= 5] is rejected with the error of an unexpected token after the
    key, the selector being empty. *)
Theorem ordering_operator_is_illegal :
  ParseString (runes "foo >= 5") =
    Some ({| Requirements := [] |},
          Errorf "unexpected token '" (runes ">") "'") /\
  forall N rest,
    option_map fst (Next N (NewLexer (chr ">" :: rest))) =
      Some (ILLEGAL, runes ">") /\
    option_map fst (Next N (NewLexer (chr "<" :: rest))) =
      Some (ILLEGAL, runes "<").
Proof.
  split; [vm_compute; reflexivity|]. intros N rest. split; reflexivity.
Qed.

(** C2, as the code has it.  The outer switch of [Parse] has no default
    case: a bracket or an operator at the start of a clause is dropped and
    the parse goes on, so that [(] and [)] parse to the empty selector and
    [=foo] to the requirement that [foo] exists, all three without error. *)
Theorem stray_token_is_dropped :
  ParseString (runes "(") = Some ({| Requirements := [] |}, None) /\
  ParseString (runes ")") = Some ({| Requirements := [] |}, None) /\
  ParseString (runes "=foo") =
    Some ({| Requirements := [existsRequirement (runes "foo")] |}, None).
Proof. repeat split; vm_compute; reflexivity. Qed.

(** The claim C3 fails on a quoted identifier with nothing between the
    quotes: the parse succeeds and the key is empty. *)
Lemma empty_quoted_key :
  ~ (forall selector,
       ParseString [dquote; dquote] = Some (selector, None) ->
       keysNonEmpty selector).
Proof.
  intro H.
  assert (E : ParseString [dquote; dquote] =
              Some ({| Requirements := [existsRequirement []] |}, None))
    by (vm_compute; reflexivity).
  specialize (H _ E). inversion H as [|req l Hkey _]; subst.
  apply Hkey. reflexivity.
Qed.

(** C3, amended.  On an input without a double quote [ParseString] returns,
    and every requirement of the selector it returns, with an error or
    without, has a non-empty key. *)
Theorem keys_nonempty_unquoted input :
  forallb (fun c => negb (c =? dquote)) input = true ->
  exists selector err,
    ParseString input = Some (selector, err) /\ keysNonEmpty selector.
Proof.
  intro Hq. unfold ParseString, Parse.
  destruct (Parse_loop_total (S (List.length (pending (NewLexer input))))
              (S (List.length (pending (NewLexer input))))
              {| Requirements := [] |} (NewLexer input))
    as (sel & err & s' & E & K); [lia | lia |].
  rewrite E. exists sel, err. split; [reflexivity|]. apply K.
  - simpl. intro Hin. rewrite forallb_forall in Hq. specialize (Hq _ Hin).
    rewrite Z.eqb_refl in Hq. discriminate Hq.
  - constructor.
Qed.

Lemma keys_nonempty_unquoted_witness :
  forallb (fun c => negb (c =? dquote)) (runes "foo, !bar, baz=") = true /\
  exists selector err,
    ParseString (runes "foo, !bar, baz=") = Some (selector, err) /\
    keysNonEmpty selector.
Proof.
  split; [reflexivity|].
  apply (keys_nonempty_unquoted (runes "foo, !bar, baz=")). reflexivity.
Defined.



(** The example of C4: [foo, bar=] yields the requirement that [foo] exists
    together with the error of the equal operator. *)
Example Parse_foo_bar_equal :
  ParseString (runes "foo, bar=") =
  Some ({| Requirements := [existsRequirement (runes "foo")] |},
        errors_New "expect identifier after equal operator").
Proof. vm_compute. reflexivity. Qed.

(** The claim C5 fails on a literal that holds the [eof] sentinel rune: in
    the quoted text [a], sentinel, [b] the literal ends at the sentinel,
    although the input goes on and no closing quote was met. *)
Lemma nul_ends_quoted_literal :
  ~ (exists lit s',
       Next 6 (NewLexer [dquote; chr "a"; eof; chr "b"; dquote]) =
         Some ((IDENT, lit), s') /\
       quoted_literal_as_specified [chr "a"; eof; chr "b"; dquote] lit
         (pending s')).
Proof.
  intros (lit & s' & E & tail & Hrest & _ & Hclose).
  vm_compute in E. inversion E; subst lit s'; clear E.
  simpl in Hrest. inversion Hrest; subst tail.
  destruct Hclose as [[H _]|[H _]]; discriminate H.
Qed.

(** C5, amended.  On a double quote [Next] returns an [IDENT] whose literal
    is the text that follows, verbatim, up to the first double quote that no
    backslash immediately precedes, up to the [eof] sentinel rune, or up to
    the end of the input, whichever comes first; the quote or the sentinel
    that ends the literal is consumed, and a missing closing quote is no
    error. *)
Theorem quoted_identifier_literal N s rest :
  pending s = dquote :: rest ->
  (List.length (pending s) < N)%nat ->
  exists lit s',
    Next N s = Some ((IDENT, lit), s') /\
    quoted_literal rest lit (pending s').
Proof.
  intros Hp HN. unfold Next, bind. rewrite (read_cons _ _ _ Hp). simpl.
  unfold scanQuotedIdent, bind.
  destruct (scanQuotedIdent_loop_spec rest N [] 0
              {| pending := rest; lastRune := Some dquote |})
    as (w & tail & s' & E & Hl & Hn & Hesc & Hclose); [reflexivity | |].
  { rewrite Hp in HN. simpl in HN. lia. }
  rewrite E. simpl. exists w, s'. split; [reflexivity|].
  exists tail. repeat split; auto.
Qed.

Lemma quoted_identifier_literal_witness :
  pending (NewLexer [dquote; chr "a"; backslash; dquote; chr "b"; dquote;
                     chr ","; chr "c"]) =
    dquote :: [chr "a"; backslash; dquote; chr "b"; dquote; chr ","; chr "c"] /\
  (List.length
     (pending (NewLexer [dquote; chr "a"; backslash; dquote; chr "b"; dquote;
                         chr ","; chr "c"])) < 9)%nat /\
  exists lit s',
    Next 9 (NewLexer [dquote; chr "a"; backslash; dquote; chr "b"; dquote;
                      chr ","; chr "c"]) = Some ((IDENT, lit), s') /\
    quoted_literal
      [chr "a"; backslash; dquote; chr "b"; dquote; chr ","; chr "c"]
      lit (pending s').
Proof.
  split; [reflexivity|]. split; [simpl; lia|].
  apply (quoted_identifier_literal 9
           (NewLexer [dquote; chr "a"; backslash; dquote; chr "b"; dquote;
                      chr ","; chr "c"])
           [chr "a"; backslash; dquote; chr "b"; dquote; chr ","; chr "c"]).
  - reflexivity.
  - simpl. lia.
Defined.

(** C6.  On an input that consists of bare identifiers separated by commas,
    with any further commas and whitespace before, between and after them,
    [ParseString] returns no error and the selector that holds one [exists]
    requirement for each identifier, in the order of the input, and nothing
    else. *)
Theorem bare_identifiers_parse lead items :
  forallb isSeparatorRune lead = true ->
  wellSeparated items = true ->
  ParseString (identifierList lead items) =
  Some ({| Requirements := map (fun it => existsRequirement (fst it)) items |},
        None).
Proof.
  intros Hlead Hwf. unfold ParseString, Parse.
  destruct (Parse_loop_identifierList
              (S (List.length (pending (NewLexer (identifierList lead items)))))
              items lead {| Requirements := [] |}
              (NewLexer (identifierList lead items))
              (S (List.length (pending (NewLexer (identifierList lead items))))))
    as [s' E]; auto.
  rewrite E. reflexivity.
Qed.

Lemma bare_identifiers_parse_witness :
  forallb isSeparatorRune (runes ",, ") = true /\
  wellSeparated [(runes "foo", runes " ,,"); (runes "bar", runes " , ")]
    = true /\
  ParseString
    (identifierList (runes ",, ")
       [(runes "foo", runes " ,,"); (runes "bar", runes " , ")]) =
  Some ({| Requirements :=
             map (fun it => existsRequirement (fst it))
               [(runes "foo", runes " ,,"); (runes "bar", runes " , ")] |},
        None).
Proof.
  split; [reflexivity|]. split; [reflexivity|].
  apply (bare_identifiers_parse (runes ",, ")
           [(runes "foo", runes " ,,"); (runes "bar", runes " , ")]);
    reflexivity.
Defined.

(** C7.  A run of identifier runes, up to the end of the input or to the
    first rune outside the class, is one token whose literal is the run as
    it was written: the token is [NOT] when the run equals NOT up to case,
    [IN] when it equals IN up to case, and [IDENT] otherwise. *)
Theorem identifier_run_token N s text rest :
  pending s = text ++ rest ->
  (0 < List.length text)%nat ->
  forallb isValidIdentRune text = true ->
  endsRun isValidIdentRune rest = true ->
  (List.length (pending s) < N)%nat ->
  exists s',
    Next N s = Some ((keywordToken text, text), s') /\
    pending s' = afterRun rest.
Proof.
  intros Hp Hlen Hall Hend HN. apply Next_run; auto.
  - destruct text; [simpl in Hlen; lia | discriminate].
  - now apply forallb_Forall_true.
Qed.

Lemma identifier_run_token_witness :
  pending (NewLexer (runes "Not x")) = runes "Not" ++ runes " x" /\
  (0 < List.length (runes "Not"))%nat /\
  forallb isValidIdentRune (runes "Not") = true /\
  endsRun isValidIdentRune (runes " x") = true /\
  (List.length (pending (NewLexer (runes "Not x"))) < 6)%nat /\
  exists s',
    Next 6 (NewLexer (runes "Not x")) =
      Some ((keywordToken (runes "Not"), runes "Not"), s') /\
    pending s' = afterRun (runes " x").
Proof.
  split; [reflexivity|]. split; [simpl; lia|]. split; [reflexivity|].
  split; [reflexivity|]. split; [simpl; lia|].
  apply (identifier_run_token 6 (NewLexer (runes "Not x")) (runes "Not")
           (runes " x")); try reflexivity; simpl; lia.
Defined.

(** The token kinds of C7 on three runs. *)
Example keywordToken_examples :
  keywordToken (runes "nOt") = NOT /\
  keywordToken (runes "In") = IN /\
  keywordToken (runes "Notin") = IDENT.
Proof. repeat split; reflexivity. Qed.

(** C8.  For every identifier [key], the input [key in ()] parses without
    error to the single requirement [in] of that key, with no values. *)
Theorem in_empty_list key :
  isIdentifier key = true ->
  ParseString (key ++ runes " in ()") =
  Some ({| Requirements :=
             [{| Key := key; Value := []; Values := [];
                 Operation_ := OperationIn |}] |}, None).
Proof.
  intros Hkey. unfold ParseString, Parse.
  set (input := key ++ runes " in ()").
  set (N := S (List.length (pending (NewLexer input)))).
  assert (Hlen : List.length input = (List.length key + 6)%nat)
    by (subst input; now rewrite length_app).
  assert (HN : (List.length input < N)%nat) by (subst N; simpl; lia).
  destruct (next_identifier N (NewLexer input) [] key (runes " in ()"))
    as [s1 [E1 Hs1]]; auto.
  { split; [reflexivity | discriminate]. }
  destruct (next_of_Next N s1 (runes " ") (runes "in ()")
              (IN, runes "in") (runes " ()")) as [s2 [E2 Hs2]]; auto.
  { repeat constructor. }
  { split; [reflexivity | discriminate]. }
  { rewrite Hs1. simpl. lia. }
  { discriminate. }
  { intros s0 H0.
    apply (Next_ident N s0 (runes "in") (runes " ()")); auto.
    - discriminate.
    - repeat constructor.
    - split; [reflexivity | discriminate].
    - rewrite H0. simpl. lia. }
  destruct (next_of_Next N s2 (runes " ") (runes "()")
              (OPENING_BRACKET, runes "(") (runes ")")) as [s3 [E3 Hs3]]; auto.
  { repeat constructor. }
  { split; [reflexivity | discriminate]. }
  { rewrite Hs2. simpl. lia. }
  { discriminate. }
  { intros s0 H0. now apply Next_opening. }
  destruct (next_of_Next N s3 [] (runes ")")
              (CLOSING_BRACKET, runes ")") []) as [s4 [E4 Hs4]]; auto.
  { split; [reflexivity | discriminate]. }
  { rewrite Hs3. simpl. lia. }
  { discriminate. }
  { intros s0 H0. now apply Next_closing. }
  assert (E5 : parseInRequirement N key s2 =
               Some (({| Key := key; Value := []; Values := [];
                         Operation_ := OperationIn |}, None), s4)).
  { unfold parseInRequirement, bind. rewrite E3.
    unfold parseIdentList. subst N.
    rewrite (parseIdentList_loop_closing _ _ _ _ _ _ E4). reflexivity. }
  destruct (next_eof N s4 []) as [s5 [E6 Hs5]]; auto.
  { rewrite Hs4. simpl. lia. }
  assert (Hk : exists k, N = S (S k)).
  { exists (List.length input - 1)%nat. subst N. simpl. lia. }
  destruct Hk as [k Hk]. rewrite Hk at 2.
  rewrite (Parse_loop_clause N (S k) _ _ key s1 IN _ s2
             parseInRequirement _ None s4 E1 E2 eq_refl E5).
  rewrite (Parse_loop_eof N k _ _ _ s5 E6). reflexivity.
Qed.

Lemma in_empty_list_witness :
  isIdentifier (runes "app.kubernetes.io/name") = true /\
  ParseString (runes "app.kubernetes.io/name" ++ runes " in ()") =
  Some ({| Requirements :=
             [{| Key := runes "app.kubernetes.io/name"; Value := [];
                 Values := []; Operation_ := OperationIn |}] |}, None).
Proof.
  split; [reflexivity|].
  apply (in_empty_list (runes "app.kubernetes.io/name")). reflexivity.
Defined.

(** C9, as the code has it.  The literal of a lone ['!'] or ['='] is the
    rune that follows it, so the message of an error that quotes such a
    literal changes when a space is put after the operator: [foo !bar] and
    [foo ! bar] fail with different errors. *)
Theorem space_changes_error :
  ParseString (runes "foo !bar") =
    Some ({| Requirements := [] |},
          Errorf "unexpected token '" (runes "b") "'") /\
  ParseString (runes "foo ! bar") =
    Some ({| Requirements := [] |},
          Errorf "unexpected token '" (runes " ") "'") /\
  ParseString (runes "foo !bar") <> ParseString (runes "foo ! bar").
Proof.
  split; [vm_compute; reflexivity|]. split; [vm_compute; reflexivity|].
  intro H. vm_compute in H. discriminate H.
Qed.

(** C10.  For every two identifiers [key] and [value], [key=value] and
    [key==value] parse without error to the same selector: the single
    requirement [equals] of that key with that value. *)
Theorem equal_aliases key value :
  isIdentifier key = true ->
  isIdentifier value = true ->
  ParseString (key ++ runes "=" ++ value) =
    Some ({| Requirements :=
               [{| Key := key; Value := value; Values := [];
                   Operation_ := OperationEquals |}] |}, None) /\
  ParseString (key ++ runes "==" ++ value) =
    ParseString (key ++ runes "=" ++ value).
Proof.
  intros Hkey Hvalue.
  rewrite (Parse_equals (runes "==") key value Hkey Hvalue (or_intror eq_refl)).
  rewrite (Parse_equals (runes "=") key value Hkey Hvalue (or_introl eq_refl)).
  split; reflexivity.
Qed.

Lemma equal_aliases_witness :
  isIdentifier (runes "tier") = true /\
  isIdentifier (runes "front-end") = true /\
  ParseString (runes "tier" ++ runes "=" ++ runes "front-end") =
    Some ({| Requirements :=
               [{| Key := runes "tier"; Value := runes "front-end";
                   Values := []; Operation_ := OperationEquals |}] |}, None) /\
  ParseString (runes "tier" ++ runes "==" ++ runes "front-end") =
    ParseString (runes "tier" ++ runes "=" ++ runes "front-end").
Proof.
  split; [reflexivity|]. split; [reflexivity|].
  apply (equal_aliases (runes "tier") (runes "front-end")); reflexivity.
Defined.

(** * Further properties of the lexer and of the parser *)

(** ** The loop of [Parse], iteration by iteration *)

Lemma Parse_loop_unfold N k sel s :
  Parse_loop N (S k) sel s =
  match clause N s with
  | Some (Stop err, s') => Some ((sel, err), s')
  | Some (Skip, s') => Parse_loop N k sel s'
  | Some (Emit req, s') => Parse_loop N k (append sel req) s'
  | None => None
  end.
Proof.
  simpl. unfold clause, bind.
  destruct (next N s) as [[[tok lit] s1]|]; [|reflexivity].
  destruct tok; simpl; try reflexivity.
  - destruct (next N s1) as [[[tok2 lit2] s2]|]; [|reflexivity].
    destruct tok2; simpl; try reflexivity;
      match goal with
      | |- context [?p N lit s2] =>
          destruct (p N lit s2) as [[[req [e|]] s3]|]; reflexivity
      end.
  - destruct (parseNotExistsRequirement N s1) as [[[req [e|]] s2]|];
      reflexivity.
Qed.

Lemma Next_declared N s tok lit s' :
  Next N s = Some ((tok, lit), s') -> declared tok = true.
Proof.
  unfold Next, bind, read, ReadRune, unread, UnreadRune, scanWhitespace,
    scanIdent, scanQuotedIdent, bind, ret.
  destruct (pending s) as [|c l]; simpl.
  - intro H. inversion H. reflexivity.
  - repeat match goal with
    | |- context [if ?b then _ else _] => destruct b; simpl
    | |- context [match ?l with [] => _ | _ :: _ => _ end] =>
        destruct l; simpl
    | |- context [match ?m with Some _ => _ | None => _ end] =>
        destruct m as [[? ?]|]; simpl
    end; intro H; inversion H; reflexivity.
Qed.

Lemma Next_EOF_inv N s lit s' :
  Next N s = Some ((EOF, lit), s') ->
  lit = [] /\
  ((pending s = [] /\ pending s' = []) \/ pending s = eof :: pending s').
Proof.
  unfold Next, bind, read, ReadRune, unread, UnreadRune, scanWhitespace,
    scanIdent, scanQuotedIdent, bind, ret.
  destruct (pending s) as [|c l]; simpl.
  - intro H. inversion H. auto.
  - repeat match goal with
    | |- context [if ?b then _ else _] => destruct b eqn:?; simpl
    | |- context [match ?l with [] => _ | _ :: _ => _ end] =>
        destruct l; simpl
    | |- context [match ?m with Some _ => _ | None => _ end] =>
        destruct m as [[? ?]|]; simpl
    end; intro H; inversion H; subst.
    split; [reflexivity|]. right.
    match goal with H : (c =? eof) = true |- _ => apply Z.eqb_eq in H end.
    simpl. congruence.
Qed.

Section ClauseFacts.

Variable N : nat.

(** The token [next] returns is one that [Next] returned, on the input or on
    what remained of it after whitespace. *)
Lemma next_loop_origin k : forall tl s r s',
  (List.length (pending s) < N)%nat ->
  next_loop N k tl s = Some (r, s') ->
  (r = tl /\ s' = s) \/
  exists s0, remains (pending s0) (pending s) /\ Next N s0 = Some (r, s').
Proof.
  induction k as [|k IH]; intros [tok0 lit0] s r s' HN H; [discriminate H|].
  destruct (Token_eqb tok0 WS) eqn:E0.
  - apply Token_eqb_eq in E0. subst tok0. rewrite next_loop_WS in H.
    destruct (Next_total N s HN) as (tok & lit & s1 & E & R & _ & _).
    rewrite E in H.
    destruct (IH (tok, lit) s1 r s') as [[-> ->]|(s0 & R0 & E0)]; auto.
    + apply remains_length in R. lia.
    + right. exists s. split; [apply remains_refl | exact E].
    + right. exists s0. split; [eapply remains_trans; eassumption | exact E0].
  - apply Token_eqb_neq in E0.
    rewrite next_loop_done in H; [|lia|assumption].
    left. inversion H. auto.
Qed.

Lemma next_origin s r s' :
  (List.length (pending s) < N)%nat ->
  next N s = Some (r, s') ->
  exists s0, remains (pending s0) (pending s) /\ Next N s0 = Some (r, s').
Proof.
  intros HN H. unfold next, scan, bind in H.
  destruct (Next_total N s HN) as (tok & lit & s1 & E & R & _ & _).
  rewrite E in H.
  destruct (next_loop_origin N (tok, lit) s1 r s') as [[-> ->]|(s0 & R0 & E0)];
    auto.
  - apply remains_length in R. lia.
  - exists s. split; [apply remains_refl | exact E].
  - exists s0. split; [eapply remains_trans; eassumption | exact E0].
Qed.

Lemma next_declared s tok lit s' :
  (List.length (pending s) < N)%nat ->
  next N s = Some ((tok, lit), s') -> declared tok = true.
Proof.
  intros HN H. destruct (next_origin s _ _ HN H) as (s0 & _ & E).
  eapply Next_declared; exact E.
Qed.

Lemma next_EOF_inv s lit s' :
  (List.length (pending s) < N)%nat ->
  next N s = Some ((EOF, lit), s') ->
  lit = [] /\ (pending s' = [] \/ In eof (pending s)).
Proof.
  intros HN H. destruct (next_origin s _ _ HN H) as (s0 & R & E).
  destruct (Next_EOF_inv N s0 lit s' E) as [Hl [[_ Hp]|Hin]]; auto.
  split; [exact Hl|]. right. eapply remains_In; [exact R|].
  rewrite Hin. left. reflexivity.
Qed.

(** *** The body, by the tokens it reads *)

Lemma clause_comma s lit s1 :
  next N s = Some ((COMMA, lit), s1) -> clause N s = Some (Skip, s1).
Proof. intro H. unfold clause, bind. rewrite H. reflexivity. Qed.

Lemma clause_eof s lit s1 :
  next N s = Some ((EOF, lit), s1) -> clause N s = Some (Stop None, s1).
Proof. intro H. unfold clause, bind. rewrite H. reflexivity. Qed.

Lemma clause_illegal s lit s1 :
  next N s = Some ((ILLEGAL, lit), s1) ->
  clause N s = Some (Stop (errors_New "illegal token"), s1).
Proof. intro H. unfold clause, bind. rewrite H. reflexivity. Qed.

Lemma clause_ignored s tok lit s1 :
  next N s = Some ((tok, lit), s1) ->
  startsNoClause tok = true ->
  clause N s = Some (Skip, s1).
Proof.
  intros H Htok. unfold clause, bind. rewrite H.
  destruct tok; try discriminate Htok; reflexivity.
Qed.

Lemma clause_not_exists s lit s1 r s2 :
  next N s = Some ((EXCLAMATION_MARK, lit), s1) ->
  parseNotExistsRequirement N s1 = Some (r, s2) ->
  clause N s = Some (outcomeOf r, s2).
Proof.
  intros H H1. unfold clause, bind. rewrite H. simpl. rewrite H1. reflexivity.
Qed.

Lemma clause_sub s key s1 tok lit s2 p r s3 :
  next N s = Some ((IDENT, key), s1) ->
  next N s1 = Some ((tok, lit), s2) ->
  clauseParser tok = Some p ->
  p N key s2 = Some (r, s3) ->
  clause N s = Some (outcomeOf r, s3).
Proof.
  intros H H1 Hp H2. unfold clause, bind. rewrite H. simpl. rewrite H1.
  destruct tok; try discriminate Hp; injection Hp as <-; rewrite H2;
    reflexivity.
Qed.

Lemma clause_exists s key s1 tok lit s2 :
  next N s = Some ((IDENT, key), s1) ->
  next N s1 = Some ((tok, lit), s2) ->
  tok = COMMA \/ tok = EOF ->
  clause N s = Some (Emit (existsRequirement key), s2).
Proof.
  intros H H1 Htok. unfold clause, bind. rewrite H. simpl. rewrite H1.
  destruct Htok; subst tok; reflexivity.
Qed.

Lemma clause_unexpected s key s1 tok lit s2 :
  next N s = Some ((IDENT, key), s1) ->
  next N s1 = Some ((tok, lit), s2) ->
  clauseParser tok = None ->
  tok <> COMMA -> tok <> EOF ->
  clause N s = Some (Stop (Errorf "unexpected token '" lit "'"), s2).
Proof.
  intros H H1 Hp Hc He. unfold clause, bind. rewrite H. simpl. rewrite H1.
  destruct tok; try discriminate Hp; try congruence; reflexivity.
Qed.

(** A description of every way the body can end. *)
Lemma clause_cases s :
  (List.length (pending s) < N)%nat ->
  exists o s',
    clause N s = Some (o, s') /\
    remains (pending s') (pending s) /\
    ((exists lit, next N s = Some ((EOF, lit), s') /\ o = Stop None) \/
     (exists e, o = Stop (Some e)) \/
     ((List.length (pending s') < List.length (pending s))%nat /\
      (o = Skip \/
       (exists key s1 tok lit s2,
          next N s = Some ((IDENT, key), s1) /\
          next N s1 = Some ((tok, lit), s2) /\
          (List.length (pending s1) < N)%nat /\
          (List.length (pending s2) < N)%nat /\
          ((o = Emit (existsRequirement key) /\ s' = s2) \/
           exists p req,
             clauseParser tok = Some p /\
             p N key s2 = Some ((req, None), s') /\ o = Emit req)) \/
       (exists lit s1 req,
          next N s = Some ((EXCLAMATION_MARK, lit), s1) /\
          parseNotExistsRequirement N s1 = Some ((req, None), s') /\
          o = Emit req)))).
Proof.
  intro HN.
  destruct (next_total N s HN) as (tok & lit & s1 & E & R & Hne & Hadv & Hid).
  pose proof (remains_length _ _ R) as Hlen.
  destruct (startsNoClause tok) eqn:Hs.
  { exists Skip, s1. rewrite (clause_ignored s tok lit s1 E Hs).
    destruct Hadv as [->|Hadv]; [discriminate Hs|]. auto 10. }
  destruct tok; try discriminate Hs.
  - exists (Stop (errors_New "illegal token")), s1.
    rewrite (clause_illegal s lit s1 E). unfold errors_New. eauto 10.
  - exists (Stop None), s1. rewrite (clause_eof s lit s1 E). eauto 10.
  - destruct Hadv as [Hadv|Hadv]; [discriminate|].
    destruct (next_total N s1) as (tok2 & lit2 & s2 & E2 & R2 & _ & _ & _);
      [lia|].
    pose proof (remains_length _ _ R2) as Hlen2.
    destruct (clauseParser tok2) as [p|] eqn:Hp.
    + destruct (clauseParser_total N tok2 p lit s2 Hp)
        as (req & err & s3 & E3 & R3 & K3); [lia|].
      pose proof (remains_length _ _ R3) as Hlen3.
      exists (outcomeOf (req, err)), s3.
      rewrite (clause_sub s lit s1 tok2 lit2 s2 p (req, err) s3 E E2 Hp E3).
      split; [reflexivity|].
      split; [eauto using remains_trans|].
      destruct err as [e|]; unfold outcomeOf; simpl; [eauto|].
      right. right. split; [lia|]. right. left.
      exists lit, s1, tok2, lit2, s2. repeat split; auto; try lia.
      right. exists p, req. auto.
    + assert (Hcase : (tok2 = COMMA \/ tok2 = EOF) \/
                      (tok2 <> COMMA /\ tok2 <> EOF))
        by (destruct tok2; auto; right; split; discriminate).
      destruct Hcase as [Hcase|[Hc He]].
      * exists (Emit (existsRequirement lit)), s2.
        rewrite (clause_exists s lit s1 tok2 lit2 s2 E E2 Hcase).
        split; [reflexivity|]. split; [eauto using remains_trans|].
        right. right. split; [lia|]. right. left.
        exists lit, s1, tok2, lit2, s2. repeat split; auto; lia.
      * exists (Stop (Errorf "unexpected token '" lit2 "'")), s2.
        rewrite (clause_unexpected s lit s1 tok2 lit2 s2 E E2 Hp Hc He).
        split; [reflexivity|]. split; [eauto using remains_trans|].
        unfold Errorf. eauto.
  - exists Skip, s1. rewrite (clause_comma s lit s1 E).
    destruct Hadv as [Hadv|Hadv]; [discriminate|]. auto 10.
  - destruct Hadv as [Hadv|Hadv]; [discriminate|].
    destruct (parseNotExistsRequirement_total N s1)
      as (req & err & s2 & E2 & R2 & K2); [lia|].
    pose proof (remains_length _ _ R2) as Hlen2.
    exists (outcomeOf (req, err)), s2.
    rewrite (clause_not_exists s lit s1 (req, err) s2 E E2).
    split; [reflexivity|]. split; [eauto using remains_trans|].
    destruct err as [e|]; unfold outcomeOf; simpl; [eauto|].
    right. right. split; [lia|]. right. right.
    exists lit, s1, req. auto.
Qed.

End ClauseFacts.

Section LoopFacts.

Variable N : nat.

Lemma parseInRequirement_inv key s r e s' :
  parseInRequirement N key s = Some ((r, e), s') ->
  Key r = key /\ Value r = [] /\ Operation_ r = OperationIn.
Proof.
  unfold parseInRequirement, bind.
  destruct (next N s) as [[[t l] s1]|]; [|discriminate].
  destruct t; simpl; try solve [intro H; inversion H; auto].
  destruct (parseIdentList N s1) as [[[vs [e'|]] s2]|];
    intro H; inversion H; auto.
Qed.

Ltac binary_inv :=
  unfold parseEqualRequirement, parseNotEqualRequirement,
    parseLowerThanRequirement, parseLowerThanEqualRequirement,
    parseGreaterThanRequirement, parseGreaterThanEqualRequirement, bind;
  match goal with
  | |- context [next ?N ?s] =>
      destruct (next N s) as [[[[] ?] ?]|]; simpl;
      intro H; inversion H; reflexivity
  end.

(** A requirement that a sub-parser returns without an error populates the
    fields of its operation only. *)
Lemma clauseParser_wellFormed tok p key s req s' :
  clauseParser tok = Some p ->
  p N key s = Some ((req, None), s') ->
  wellFormed req = true.
Proof.
  intros Hp.
  destruct tok; try discriminate Hp; injection Hp as <-; try binary_inv.
  - intro H. destruct (parseInRequirement_inv key s req None s' H)
      as (_ & Hv & Ho).
    unfold wellFormed. rewrite Ho, Hv. reflexivity.
  - unfold parseNotInRequirement, bind.
    destruct (next N s) as [[[t l] s1]|]; [|discriminate].
    destruct t; simpl; try (intro H; discriminate H).
    destruct (parseInRequirement N key s1) as [[[r [e|]] s2]|] eqn:E;
      intro H; inversion H; subst.
    destruct (parseInRequirement_inv key s1 r None s' E) as (_ & Hv & _).
    unfold wellFormed. simpl. rewrite Hv. reflexivity.
Qed.

(** A sub-parser that is called on a token of [lexer.go] returns no
    requirement of an ordering operator. *)
Lemma clauseParser_not_ordering tok p key s req s' :
  clauseParser tok = Some p ->
  declared tok = true ->
  p N key s = Some ((req, None), s') ->
  isOrdering (Operation_ req) = false.
Proof.
  intros Hp Hd.
  destruct tok; try discriminate Hp; try discriminate Hd; injection Hp as <-;
    try binary_inv.
  - intro H. destruct (parseInRequirement_inv key s req None s' H)
      as (_ & _ & Ho).
    rewrite Ho. reflexivity.
  - unfold parseNotInRequirement, bind.
    destruct (next N s) as [[[t l] s1]|]; [|discriminate].
    destruct t; simpl; try (intro H; discriminate H).
    destruct (parseInRequirement N key s1) as [[[r [e|]] s2]|] eqn:E;
      intro H; inversion H; subst. reflexivity.
Qed.

Lemma parseNotExistsRequirement_wellFormed s req s' :
  parseNotExistsRequirement N s = Some ((req, None), s') ->
  wellFormed req = true.
Proof.
  unfold parseNotExistsRequirement, bind.
  destruct (next N s) as [[[t l] s1]|]; [|discriminate].
  destruct t; simpl; intro H; inversion H; reflexivity.
Qed.

Lemma parseNotExistsRequirement_not_ordering s req s' :
  parseNotExistsRequirement N s = Some ((req, None), s') ->
  isOrdering (Operation_ req) = false.
Proof.
  unfold parseNotExistsRequirement, bind.
  destruct (next N s) as [[[t l] s1]|]; [|discriminate].
  destruct t; simpl; intro H; inversion H; reflexivity.
Qed.

(** What holds of the requirement of a bare key and of every requirement
    that a sub-parser returns holds of every requirement that an iteration
    appends. *)
Lemma clause_emits (P : Requirement -> Prop) s req s' :
  (forall key, P (existsRequirement key)) ->
  (forall tok p key s2 r s3,
     clauseParser tok = Some p -> declared tok = true ->
     p N key s2 = Some ((r, None), s3) -> P r) ->
  (forall s1 r s2,
     parseNotExistsRequirement N s1 = Some ((r, None), s2) -> P r) ->
  (List.length (pending s) < N)%nat ->
  clause N s = Some (Emit req, s') ->
  P req.
Proof.
  intros Hex Hsub Hnot HN H.
  destruct (clause_cases N s HN) as (o & s0 & E & _ & Hcases).
  rewrite H in E. injection E as <- <-.
  destruct Hcases as [(lit & _ & Ho)|[(e & Ho)|(_ & [Ho|[Hc|Hc]])]];
    try discriminate Ho.
  - destruct Hc as (key & s1 & tok & lit & s2 & E1 & E2 & HN1 & HN2 &
                    [[Ho _]|(p & r & Hp & Er & Ho)]).
    + injection Ho as ->. apply Hex.
    + injection Ho as ->.
      eapply Hsub; [exact Hp | | exact Er].
      eapply next_declared; [|exact E2]. exact HN1.
  - destruct Hc as (lit & s1 & r & E1 & Er & Ho). injection Ho as ->.
    eapply Hnot. exact Er.
Qed.

(** The loop of [Parse] returns; it keeps what holds of every requirement
    that an iteration appends; when it returns [nil], nothing is pending
    unless the input held the [eof] sentinel. *)
Lemma Parse_loop_run (P : Requirement -> Prop) :
  (forall s req s',
     (List.length (pending s) < N)%nat ->
     clause N s = Some (Emit req, s') -> P req) ->
  forall k sel s,
    (List.length (pending s) < k)%nat ->
    (List.length (pending s) < N)%nat ->
    exists sel' err s',
      Parse_loop N k sel s = Some ((sel', err), s') /\
      (Forall P (Requirements sel) -> Forall P (Requirements sel')) /\
      (err = None -> pending s' = [] \/ In eof (pending s)).
Proof.
  intros HP. induction k as [|k IH]; intros sel s Hk HN; [lia|].
  rewrite Parse_loop_unfold.
  destruct (clause_cases N s HN) as (o & s1 & E & R & Hcases).
  rewrite E. pose proof (remains_length _ _ R) as Hlen.
  assert (Hcont : forall sel0,
            (Forall P (Requirements sel) -> Forall P (Requirements sel0)) ->
            (List.length (pending s1) < List.length (pending s))%nat ->
            exists sel' err s',
              Parse_loop N k sel0 s1 = Some ((sel', err), s') /\
              (Forall P (Requirements sel) -> Forall P (Requirements sel')) /\
              (err = None -> pending s' = [] \/ In eof (pending s))).
  { intros sel0 H0 Hlt.
    destruct (IH sel0 s1) as (sel' & err & s' & E' & F' & C'); [lia | lia |].
    exists sel', err, s'. split; [exact E'|]. split; [auto|].
    intro He. destruct (C' He) as [Hnil|Hin]; [auto|].
    right. eapply remains_In; eassumption. }
  destruct o as [err| |req].
  - exists sel, err, s1. split; [reflexivity|]. split; [auto|].
    intros ->.
    destruct Hcases as [(lit & En & _)|[(e & Ho)|(_ & [Ho|[Hc|Hc]])]];
      try discriminate Ho.
    + destruct (next_EOF_inv N s lit s1 HN En) as [_ H]. exact H.
    + destruct Hc as (? & ? & ? & ? & ? & _ & _ & _ & _ &
                      [[Ho _]|(? & ? & _ & _ & Ho)]); discriminate Ho.
    + destruct Hc as (? & ? & ? & _ & _ & Ho). discriminate Ho.
  - apply Hcont; [auto|].
    destruct Hcases as [(lit & _ & Ho)|[(e & Ho)|(Hlt & _)]];
      try discriminate Ho. exact Hlt.
  - apply Hcont.
    + intro HF. unfold append. simpl. apply Forall_app. split; [exact HF|].
      constructor; [|constructor]. eapply HP; eassumption.
    + destruct Hcases as [(lit & _ & Ho)|[(e & Ho)|(Hlt & _)]];
        try discriminate Ho. exact Hlt.
Qed.

(** The requirements already accumulated play no part in the iterations to
    come: from any state, the loop returns them, unchanged and in order,
    followed by the requirements it returns when started on the empty
    selector, with the same error and the same final state. *)
Theorem Parse_loop_accumulator k : forall sel s,
  Parse_loop N k sel s =
  match Parse_loop N k {| Requirements := [] |} s with
  | Some ((r, err), s') =>
      Some (({| Requirements := Requirements sel ++ Requirements r |}, err), s')
  | None => None
  end.
Proof.
  induction k as [|k IH]; intros sel s; [reflexivity|].
  rewrite !Parse_loop_unfold.
  destruct (clause N s) as [[[err| |req] s1]|]; [| | |reflexivity].
  - destruct sel as [reqs]. simpl. now rewrite app_nil_r.
  - apply IH.
  - rewrite (IH (append sel req)), (IH (append {| Requirements := [] |} req)).
    destruct (Parse_loop N k {| Requirements := [] |} s1)
      as [[[r err] s']|]; [|reflexivity].
    simpl. now rewrite <- app_assoc.
Qed.

End LoopFacts.

Lemma GoString_eqb_eq a : forall b, GoString_eqb a b = true -> a = b.
Proof.
  induction a as [|x a IH]; intros [|y b] H; simpl in H;
    try discriminate; [reflexivity|].
  apply andb_true_iff in H. destruct H as [Hx Hab].
  apply Z.eqb_eq in Hx. subst y. f_equal. auto.
Qed.

Lemma stops_ident_ws ws :
  Forall (fun c => isWhitespace c = true) ws -> stops isValidIdentRune ws.
Proof.
  destruct 1 as [|c ws Hc _]; [exact I|]. simpl.
  split; [|now apply isWhitespace_not_eof].
  destruct (isValidIdentRune c) eqn:E; [|reflexivity].
  apply ident_not_ws in E. congruence.
Qed.

Lemma stops_ident_app ws rest :
  Forall (fun c => isWhitespace c = true) ws ->
  stops isValidIdentRune rest ->
  stops isValidIdentRune (ws ++ rest).
Proof.
  intros Hws Hrest. destruct ws as [|c ws]; [exact Hrest|].
  apply (stops_ident_ws (c :: ws)) in Hws. exact Hws.
Qed.

Lemma forallb_ws ws :
  forallb isWhitespace ws = true -> Forall (fun c => isWhitespace c = true) ws.
Proof. apply forallb_Forall_true. Qed.

(** *** From one clause to [ParseString] *)

Lemma ParseString_Stop input err s1 :
  clause (S (List.length input)) (NewLexer input) = Some (Stop err, s1) ->
  ParseString input = Some ({| Requirements := [] |}, err).
Proof.
  intro H. unfold ParseString, Parse. simpl pending.
  rewrite Parse_loop_unfold, H. reflexivity.
Qed.

Lemma ParseString_Emit input req s1 :
  clause (S (List.length input)) (NewLexer input) = Some (Emit req, s1) ->
  Forall (fun c => isWhitespace c = true) (pending s1) ->
  ParseString input = Some ({| Requirements := [req] |}, None).
Proof.
  intros H Hws. unfold ParseString, Parse. simpl pending.
  destruct (clause_cases (S (List.length input)) (NewLexer input))
    as (o & s0 & E & R & Hcases); [simpl; lia|].
  rewrite H in E. injection E as <- <-.
  assert (Hlt : (List.length (pending s1) < List.length input)%nat).
  { destruct Hcases as [(lit & _ & Ho)|[(e & Ho)|(Hlt & _)]];
      try discriminate Ho. exact Hlt. }
  destruct input as [|c input]; [simpl in Hlt; lia|].
  rewrite Parse_loop_unfold, H. simpl Datatypes.length.
  rewrite Parse_loop_unfold.
  destruct (next_eof (S (S (List.length input))) s1 (pending s1))
    as [s2 [E2 _]]; auto.
  rewrite (clause_eof _ _ _ _ E2). reflexivity.
Qed.

Section Clauses.

Variable N : nat.

Lemma Next_not_equal s rest :
  pending s = chr "!" :: chr "=" :: rest ->
  exists s', Next N s = Some ((NOT_EQUAL, runes "!="), s') /\
             pending s' = rest.
Proof.
  intro Hp. unfold Next, bind. rewrite (read_cons _ _ _ Hp). simpl.
  eexists. split; reflexivity.
Qed.

(** A lone ['!']: the literal is the rune that follows it. *)
Lemma Next_exclamation s rest :
  pending s = chr "!" :: rest ->
  hd eof rest <> chr "=" ->
  exists s', Next N s = Some ((EXCLAMATION_MARK, [hd eof rest]), s') /\
             pending s' = rest.
Proof.
  intros Hp Hne. unfold Next, bind. rewrite (read_cons _ _ _ Hp). simpl.
  destruct rest as [|c r]; simpl in *.
  - eexists. split; reflexivity.
  - apply Z.eqb_neq in Hne. unfold read, ReadRune. simpl. rewrite Hne. simpl.
    eexists. split; reflexivity.
Qed.

Lemma Next_illegal s c rest :
  pending s = c :: rest ->
  isIllegalRune c = true ->
  exists s', Next N s = Some ((ILLEGAL, [c]), s') /\ pending s' = rest.
Proof.
  intros Hp Hc. unfold isIllegalRune in Hc.
  apply negb_true_iff in Hc.
  do 8 (apply orb_false_iff in Hc; let H := fresh "H" in destruct Hc as [Hc H]).
  unfold Next, bind. rewrite (read_cons _ _ _ Hp).
  repeat match goal with H : _ = false |- _ => rewrite H; clear H end.
  simpl. eexists. split; reflexivity.
Qed.

(** The operator of a binary clause, after any whitespace. *)
Lemma next_operator s ws op o msg rest :
  binaryOperator op = Some (o, msg) ->
  pending s = ws ++ op ++ rest ->
  Forall (fun c => isWhitespace c = true) ws ->
  hd eof rest <> chr "=" ->
  (List.length (pending s) < N)%nat ->
  exists lit s',
    next N s =
      Some ((if GoString_eqb op (runes "!=") then NOT_EQUAL else EQUAL, lit),
            s') /\
    pending s' = rest.
Proof.
  unfold binaryOperator. intros Hop Hp Hws Hne HN.
  destruct (GoString_eqb op (runes "=")) eqn:E1;
    [|destruct (GoString_eqb op (runes "==")) eqn:E2;
      [|destruct (GoString_eqb op (runes "!=")) eqn:E3; [|discriminate Hop]]];
    simpl in Hop.
  - apply GoString_eqb_eq in E1. subst op. simpl.
    exists [hd eof rest].
    apply (next_of_Next N s ws (chr "=" :: rest)); auto.
    + split; [reflexivity | discriminate].
    + discriminate.
    + intros s0 H0. now apply Next_equal.
  - apply GoString_eqb_eq in E2. subst op. simpl.
    exists (runes "==").
    apply (next_of_Next N s ws (chr "=" :: chr "=" :: rest)); auto.
    + split; [reflexivity | discriminate].
    + discriminate.
    + intros s0 H0. now apply Next_equal_equal.
  - apply GoString_eqb_eq in E3. subst op. simpl.
    exists (runes "!=").
    apply (next_of_Next N s ws (chr "!" :: chr "=" :: rest)); auto.
    + split; [reflexivity | discriminate].
    + discriminate.
    + intros s0 H0. now apply Next_not_equal.
Qed.

End Clauses.

Lemma binaryOperator_cases op o msg :
  binaryOperator op = Some (o, msg) ->
  ((op = runes "=" \/ op = runes "==") /\ o = OperationEquals /\
   msg = "expect identifier after equal operator"%string) \/
  (op = runes "!=" /\ o = OperationNotEquals /\
   msg = "expect identifier after not-equal operator"%string).
Proof.
  unfold binaryOperator. intro H.
  destruct (GoString_eqb op (runes "=")) eqn:E1;
    [|destruct (GoString_eqb op (runes "==")) eqn:E2;
      [|destruct (GoString_eqb op (runes "!=")) eqn:E3; [|discriminate H]]];
    simpl in H; injection H as <- <-;
    match goal with E : GoString_eqb _ _ = true |- _ =>
      apply GoString_eqb_eq in E end; auto.
Qed.

Lemma stops_ident_operator op o msg rest :
  binaryOperator op = Some (o, msg) -> stops isValidIdentRune (op ++ rest).
Proof.
  intro H. destruct (binaryOperator_cases _ _ _ H) as [[[->| ->] _]|[-> _]];
    (split; [reflexivity | discriminate]).
Qed.

Lemma hd_not_equal ws id rest :
  Forall (fun c => isWhitespace c = true) ws ->
  isIdentifier id = true ->
  hd eof (ws ++ id ++ rest) <> chr "=".
Proof.
  intros Hws Hid. destruct ws as [|c ws].
  - pose proof (identifier_head id rest Hid) as H. simpl.
    intro E. rewrite E in H. discriminate H.
  - inversion Hws as [|? ? Hc _]; subst. simpl. intros ->. discriminate Hc.
Qed.

Lemma hd_ws_not_equal ws :
  Forall (fun c => isWhitespace c = true) ws -> hd eof ws <> chr "=".
Proof.
  intros Hws. destruct ws as [|c ws]; [discriminate|].
  inversion Hws as [|? ? Hc _]; subst. simpl. intros ->. discriminate Hc.
Qed.

(** Settles the bound on a state whose pending runes are known. *)
Ltac fuel :=
  repeat match goal with
  | H : pending _ = _ |- _ => rewrite H in *; clear H
  end;
  simpl pending in *; rewrite ?length_app in *; simpl Datatypes.length in *;
  rewrite ?length_app in *; simpl Datatypes.length in *; lia.

Section BinaryClauses.

Variable N : nat.

Lemma clause_binary s ws0 key ws1 op o msg ws2 value rest :
  binaryOperator op = Some (o, msg) ->
  isIdentifier key = true ->
  isIdentifier value = true ->
  Forall (fun c => isWhitespace c = true) ws0 ->
  Forall (fun c => isWhitespace c = true) ws1 ->
  Forall (fun c => isWhitespace c = true) ws2 ->
  stops isValidIdentRune rest ->
  pending s = ws0 ++ key ++ ws1 ++ op ++ ws2 ++ value ++ rest ->
  (List.length (pending s) < N)%nat ->
  exists s',
    clause N s =
      Some (Emit {| Key := key; Value := value; Values := [];
                    Operation_ := o |}, s') /\
    pending s' = rest.
Proof.
  intros Hop Hkey Hvalue H0 H1 H2 Hrest Hp HN.
  destruct (next_identifier N s ws0 key (ws1 ++ op ++ ws2 ++ value ++ rest))
    as [s1 [E1 Hs1]]; auto.
  { apply stops_ident_app; [assumption|].
    eapply stops_ident_operator; eassumption. }
  destruct (next_operator N s1 ws1 op o msg (ws2 ++ value ++ rest))
    as (lit & s2 & E2 & Hs2); auto.
  { now apply hd_not_equal. }
  { fuel. }
  destruct (next_identifier N s2 ws2 value rest) as [s3 [E3 Hs3]]; auto.
  { fuel. }
  exists s3. split; [|exact Hs3].
  destruct (binaryOperator_cases _ _ _ Hop) as [[Hcase [-> _]]|[-> [-> _]]].
  - assert (Heq : GoString_eqb op (runes "!=") = false)
      by (destruct Hcase; subst op; reflexivity).
    rewrite Heq in E2.
    rewrite (clause_sub N s key s1 EQUAL lit s2 parseEqualRequirement
               ({| Key := key; Value := value; Values := [];
                   Operation_ := OperationEquals |}, None) s3 E1 E2 eq_refl);
      [reflexivity|].
    unfold parseEqualRequirement, bind. rewrite E3. reflexivity.
  - simpl in E2.
    rewrite (clause_sub N s key s1 NOT_EQUAL lit s2 parseNotEqualRequirement
               ({| Key := key; Value := value; Values := [];
                   Operation_ := OperationNotEquals |}, None) s3 E1 E2 eq_refl);
      [reflexivity|].
    unfold parseNotEqualRequirement, bind. rewrite E3. reflexivity.
Qed.

Lemma clause_operand_missing s ws0 key ws1 op o msg ws2 :
  binaryOperator op = Some (o, msg) ->
  isIdentifier key = true ->
  Forall (fun c => isWhitespace c = true) ws0 ->
  Forall (fun c => isWhitespace c = true) ws1 ->
  Forall (fun c => isWhitespace c = true) ws2 ->
  pending s = ws0 ++ key ++ ws1 ++ op ++ ws2 ->
  (List.length (pending s) < N)%nat ->
  exists s', clause N s = Some (Stop (errors_New msg), s').
Proof.
  intros Hop Hkey H0 H1 H2 Hp HN.
  destruct (next_identifier N s ws0 key (ws1 ++ op ++ ws2))
    as [s1 [E1 Hs1]]; auto.
  { apply stops_ident_app; [assumption|].
    eapply stops_ident_operator; eassumption. }
  destruct (next_operator N s1 ws1 op o msg ws2)
    as (lit & s2 & E2 & Hs2); auto.
  { now apply hd_ws_not_equal. }
  { fuel. }
  destruct (next_eof N s2 ws2) as [s3 [E3 Hs3]]; auto.
  { fuel. }
  exists s3.
  destruct (binaryOperator_cases _ _ _ Hop) as [[Hcase [-> ->]]|[-> [-> ->]]].
  - assert (Heq : GoString_eqb op (runes "!=") = false)
      by (destruct Hcase; subst op; reflexivity).
    rewrite Heq in E2.
    rewrite (clause_sub N s key s1 EQUAL lit s2 parseEqualRequirement
               (zeroRequirement,
                errors_New "expect identifier after equal operator")
               s3 E1 E2 eq_refl);
      [reflexivity|].
    unfold parseEqualRequirement, bind. rewrite E3. reflexivity.
  - simpl in E2.
    rewrite (clause_sub N s key s1 NOT_EQUAL lit s2 parseNotEqualRequirement
               (zeroRequirement,
                errors_New "expect identifier after not-equal operator")
               s3 E1 E2 eq_refl);
      [reflexivity|].
    unfold parseNotEqualRequirement, bind. rewrite E3. reflexivity.
Qed.

End BinaryClauses.

(** A key, a binary operator that the lexer knows and a value, with any
    whitespace before, between and after them, parse without error to the
    single requirement of that operator: [equals] for [=] and [==],
    [notEquals] for [!=]. *)
Theorem binary_clause_parses ws0 key ws1 op ws2 value ws3 o msg :
  binaryOperator op = Some (o, msg) ->
  isIdentifier key = true ->
  isIdentifier value = true ->
  forallb isWhitespace (ws0 ++ ws1 ++ ws2 ++ ws3) = true ->
  ParseString (ws0 ++ key ++ ws1 ++ op ++ ws2 ++ value ++ ws3) =
  Some ({| Requirements :=
             [{| Key := key; Value := value; Values := [];
                 Operation_ := o |}] |}, None).
Proof.
  intros Hop Hkey Hvalue Hws.
  rewrite !forallb_app in Hws.
  apply andb_true_iff in Hws. destruct Hws as [H0 Hws].
  apply andb_true_iff in Hws. destruct Hws as [H1 Hws].
  apply andb_true_iff in Hws. destruct Hws as [H2 H3].
  apply forallb_ws in H0, H1, H2, H3.
  set (input := ws0 ++ key ++ ws1 ++ op ++ ws2 ++ value ++ ws3).
  destruct (clause_binary (S (List.length input)) (NewLexer input)
              ws0 key ws1 op o msg ws2 value ws3) as [s' [E Hs']];
    auto using stops_ident_ws.
  apply (ParseString_Emit input _ s' E). now rewrite Hs'.
Qed.

Lemma binary_clause_parses_witness :
  binaryOperator (runes "!=") =
    Some (OperationNotEquals,
          "expect identifier after not-equal operator"%string) /\
  isIdentifier (runes "env") = true /\
  isIdentifier (runes "prod") = true /\
  forallb isWhitespace (runes " " ++ runes "  " ++ [] ++ runes " ") = true /\
  ParseString (runes " " ++ runes "env" ++ runes "  " ++ runes "!=" ++ [] ++
               runes "prod" ++ runes " ") =
  Some ({| Requirements :=
             [{| Key := runes "env"; Value := runes "prod"; Values := [];
                 Operation_ := OperationNotEquals |}] |}, None).
Proof.
  split; [reflexivity|]. split; [reflexivity|]. split; [reflexivity|].
  split; [reflexivity|].
  apply (binary_clause_parses (runes " ") (runes "env") (runes "  ")
           (runes "!=") [] (runes "prod") (runes " ") OperationNotEquals
           "expect identifier after not-equal operator"); reflexivity.
Defined.

(** A key followed by a binary operator at the end of the input, with any
    whitespace around them, is rejected with the message of that operator
    for a missing identifier, and the selector is empty. *)
Theorem operand_missing ws0 key ws1 op ws2 o msg :
  binaryOperator op = Some (o, msg) ->
  isIdentifier key = true ->
  forallb isWhitespace (ws0 ++ ws1 ++ ws2) = true ->
  ParseString (ws0 ++ key ++ ws1 ++ op ++ ws2) =
  Some ({| Requirements := [] |}, errors_New msg).
Proof.
  intros Hop Hkey Hws.
  rewrite !forallb_app in Hws.
  apply andb_true_iff in Hws. destruct Hws as [H0 Hws].
  apply andb_true_iff in Hws. destruct Hws as [H1 H2].
  apply forallb_ws in H0, H1, H2.
  set (input := ws0 ++ key ++ ws1 ++ op ++ ws2).
  destruct (clause_operand_missing (S (List.length input)) (NewLexer input)
              ws0 key ws1 op o msg ws2) as [s' E]; auto.
  apply (ParseString_Stop input _ s' E).
Qed.

Lemma operand_missing_witness :
  binaryOperator (runes "==") =
    Some (OperationEquals, "expect identifier after equal operator"%string) /\
  isIdentifier (runes "foo") = true /\
  forallb isWhitespace ([] ++ runes " " ++ runes " ") = true /\
  ParseString ([] ++ runes "foo" ++ runes " " ++ runes "==" ++ runes " ") =
  Some ({| Requirements := [] |},
        errors_New "expect identifier after equal operator").
Proof.
  split; [reflexivity|]. split; [reflexivity|]. split; [reflexivity|].
  apply (operand_missing [] (runes "foo") (runes " ") (runes "==") (runes " ")
           OperationEquals "expect identifier after equal operator");
    reflexivity.
Defined.

Lemma stops_ident_nonempty_ws ws rest :
  ws <> [] ->
  Forall (fun c => isWhitespace c = true) ws ->
  stops isValidIdentRune (ws ++ rest).
Proof.
  intros Hne Hws. destruct ws as [|c ws]; [congruence|].
  apply (stops_ident_ws (c :: ws)) in Hws. exact Hws.
Qed.

Lemma scanQuotedIdent_loop_plain rest lit : forall k buf lst s,
  pending s = lit ++ dquote :: rest ->
  forallb (fun c => negb (c =? dquote) && negb (c =? eof)) lit = true ->
  last lit lst <> backslash ->
  (List.length lit < k)%nat ->
  exists s', scanQuotedIdent_loop k buf lst s = Some (buf ++ lit, s') /\
             pending s' = rest.
Proof.
  induction lit as [|c lit IH]; intros k buf lst s Hp Hall Hlast Hk;
    (destruct k as [|k]; [simpl in Hk; lia|]); simpl; unfold bind;
    simpl in Hp; rewrite (read_cons _ _ _ Hp).
  - simpl in Hlast. apply Z.eqb_neq in Hlast. rewrite Hlast. simpl.
    rewrite app_nil_r. eexists. split; reflexivity.
  - simpl in Hall. apply andb_true_iff in Hall. destruct Hall as [Hc Hall].
    apply andb_true_iff in Hc. destruct Hc as [Hq He].
    apply negb_true_iff in Hq, He. rewrite Hq, He. simpl.
    rewrite last_cons_default in Hlast.
    destruct (IH k (buf ++ [c]) c
                {| pending := lit ++ dquote :: rest; lastRune := Some c |})
      as [s' [E Hs']]; auto.
    { simpl in Hk. lia. }
    exists s'. rewrite E, <- app_assoc. auto.
Qed.

Section MoreClauses.

Variable N : nat.

Lemma Next_quoted_plain s lit rest :
  pending s = dquote :: lit ++ dquote :: rest ->
  isPlainQuoted lit = true ->
  (List.length (pending s) < N)%nat ->
  exists s', Next N s = Some ((IDENT, lit), s') /\ pending s' = rest.
Proof.
  intros Hp Hlit HN. unfold isPlainQuoted in Hlit.
  apply andb_true_iff in Hlit. destruct Hlit as [Hall Hlast].
  apply negb_true_iff, Z.eqb_neq in Hlast.
  unfold Next, bind. rewrite (read_cons _ _ _ Hp). simpl.
  unfold scanQuotedIdent, bind.
  destruct (scanQuotedIdent_loop_plain rest lit N [] 0
              {| pending := lit ++ dquote :: rest; lastRune := Some dquote |})
    as [s' [E Hs']]; auto.
  { rewrite Hp in HN. simpl in HN. rewrite length_app in HN. lia. }
  rewrite E. simpl. exists s'. auto.
Qed.

Lemma clause_not_exists_key s ws0 ws1 key rest :
  isIdentifier key = true ->
  Forall (fun c => isWhitespace c = true) ws0 ->
  Forall (fun c => isWhitespace c = true) ws1 ->
  stops isValidIdentRune rest ->
  pending s = ws0 ++ chr "!" :: ws1 ++ key ++ rest ->
  (List.length (pending s) < N)%nat ->
  exists s',
    clause N s =
      Some (Emit {| Key := key; Value := []; Values := [];
                    Operation_ := OperationNotExists |}, s') /\
    pending s' = rest.
Proof.
  intros Hkey H0 H1 Hrest Hp HN.
  destruct (next_of_Next N s ws0 (chr "!" :: ws1 ++ key ++ rest)
              (EXCLAMATION_MARK, [hd eof (ws1 ++ key ++ rest)])
              (ws1 ++ key ++ rest)) as [s1 [E1 Hs1]]; auto.
  { split; [reflexivity | discriminate]. }
  { discriminate. }
  { intros s0 Hs0. apply Next_exclamation; auto. now apply hd_not_equal. }
  destruct (next_identifier N s1 ws1 key rest) as [s2 [E2 Hs2]]; auto.
  { fuel. }
  exists s2. split; [|exact Hs2].
  rewrite (clause_not_exists N s _ s1
             ({| Key := key; Value := []; Values := [];
                 Operation_ := OperationNotExists |}, None) s2 E1);
    [reflexivity|].
  unfold parseNotExistsRequirement, bind. rewrite E2. reflexivity.
Qed.

Lemma clause_not_exists_missing s ws0 ws1 :
  Forall (fun c => isWhitespace c = true) ws0 ->
  Forall (fun c => isWhitespace c = true) ws1 ->
  pending s = ws0 ++ chr "!" :: ws1 ->
  (List.length (pending s) < N)%nat ->
  exists s',
    clause N s =
      Some (Stop (errors_New "expect identifier after exclamation mark"), s').
Proof.
  intros H0 H1 Hp HN.
  destruct (next_of_Next N s ws0 (chr "!" :: ws1)
              (EXCLAMATION_MARK, [hd eof ws1]) ws1) as [s1 [E1 Hs1]]; auto.
  { split; [reflexivity | discriminate]. }
  { discriminate. }
  { intros s0 Hs0. apply Next_exclamation; auto. now apply hd_ws_not_equal. }
  destruct (next_eof N s1 ws1) as [s2 [E2 Hs2]]; auto.
  { fuel. }
  exists s2.
  rewrite (clause_not_exists N s _ s1
             (zeroRequirement,
              errors_New "expect identifier after exclamation mark") s2 E1);
    [reflexivity|].
  unfold parseNotExistsRequirement, bind. rewrite E2. reflexivity.
Qed.

Lemma clause_two_identifiers s ws0 key ws1 other rest :
  isIdentifier key = true ->
  isIdentifier other = true ->
  Forall (fun c => isWhitespace c = true) ws0 ->
  Forall (fun c => isWhitespace c = true) ws1 ->
  ws1 <> [] ->
  stops isValidIdentRune rest ->
  pending s = ws0 ++ key ++ ws1 ++ other ++ rest ->
  (List.length (pending s) < N)%nat ->
  exists s',
    clause N s = Some (Stop (Errorf "unexpected token '" other "'"), s').
Proof.
  intros Hkey Hother H0 H1 Hne Hrest Hp HN.
  destruct (next_identifier N s ws0 key (ws1 ++ other ++ rest))
    as [s1 [E1 Hs1]]; auto using stops_ident_nonempty_ws.
  destruct (next_identifier N s1 ws1 other rest) as [s2 [E2 Hs2]]; auto.
  { fuel. }
  exists s2.
  apply (clause_unexpected N s key s1 IDENT other s2 E1 E2);
    [reflexivity | discriminate | discriminate].
Qed.

Lemma next_keyword s ws kw rest :
  pending s = ws ++ kw ++ rest ->
  Forall (fun c => isWhitespace c = true) ws ->
  kw = runes "in" \/ kw = runes "not" ->
  stops isValidIdentRune rest ->
  (List.length (pending s) < N)%nat ->
  exists s', next N s = Some ((keywordToken kw, kw), s') /\ pending s' = rest.
Proof.
  intros Hp Hws Hkw Hrest HN.
  apply (next_of_Next N s ws (kw ++ rest)); auto.
  - destruct Hkw; subst kw; (split; [reflexivity | discriminate]).
  - destruct Hkw; subst kw; discriminate.
  - intros s0 H0. apply Next_ident; auto.
    + destruct Hkw; subst kw; discriminate.
    + destruct Hkw; subst kw; repeat constructor.
    + rewrite H0. rewrite Hp, length_app in HN. lia.
Qed.

Lemma clause_not_without_in s ws0 key ws1 ws2 other rest :
  isIdentifier key = true ->
  isIdentifier other = true ->
  Forall (fun c => isWhitespace c = true) ws0 ->
  Forall (fun c => isWhitespace c = true) ws1 ->
  Forall (fun c => isWhitespace c = true) ws2 ->
  ws1 <> [] -> ws2 <> [] ->
  stops isValidIdentRune rest ->
  pending s = ws0 ++ key ++ ws1 ++ runes "not" ++ ws2 ++ other ++ rest ->
  (List.length (pending s) < N)%nat ->
  exists s',
    clause N s =
      Some (Stop (Errorf "require 'IN' after 'NOT' got '" other "'"), s').
Proof.
  intros Hkey Hother H0 H1 H2 Hne1 Hne2 Hrest Hp HN.
  destruct (next_identifier N s ws0 key
              (ws1 ++ runes "not" ++ ws2 ++ other ++ rest))
    as [s1 [E1 Hs1]]; auto using stops_ident_nonempty_ws.
  destruct (next_keyword s1 ws1 (runes "not") (ws2 ++ other ++ rest))
    as [s2 [E2 Hs2]]; auto using stops_ident_nonempty_ws.
  { fuel. }
  destruct (next_identifier N s2 ws2 other rest) as [s3 [E3 Hs3]]; auto.
  { fuel. }
  exists s3.
  rewrite (clause_sub N s key s1 NOT _ s2 parseNotInRequirement
             (zeroRequirement,
              Errorf "require 'IN' after 'NOT' got '" other "'")
             s3 E1 E2 eq_refl);
    [reflexivity|].
  unfold parseNotInRequirement, bind. rewrite E3. reflexivity.
Qed.

Lemma clause_quoted_key s ws0 lit ws1 :
  isPlainQuoted lit = true ->
  Forall (fun c => isWhitespace c = true) ws0 ->
  Forall (fun c => isWhitespace c = true) ws1 ->
  pending s = ws0 ++ dquote :: lit ++ dquote :: ws1 ->
  (List.length (pending s) < N)%nat ->
  exists s',
    clause N s = Some (Emit (existsRequirement lit), s') /\ pending s' = [].
Proof.
  intros Hlit H0 H1 Hp HN.
  destruct (next_of_Next N s ws0 (dquote :: lit ++ dquote :: ws1)
              (IDENT, lit) ws1) as [s1 [E1 Hs1]]; auto.
  { split; [reflexivity | discriminate]. }
  { discriminate. }
  { intros s0 Hs0. apply Next_quoted_plain; auto.
    rewrite Hs0. rewrite Hp, length_app in HN. lia. }
  destruct (next_eof N s1 ws1) as [s2 [E2 Hs2]]; auto.
  { fuel. }
  exists s2. split; [|exact Hs2].
  apply (clause_exists N s lit s1 EOF [] s2 E1 E2). auto.
Qed.

End MoreClauses.

(** An exclamation mark followed by a key, with any whitespace around them,
    parses without error to the single requirement [notExist] of that key. *)
Theorem not_exists_parses ws0 ws1 key ws2 :
  isIdentifier key = true ->
  forallb isWhitespace (ws0 ++ ws1 ++ ws2) = true ->
  ParseString (ws0 ++ chr "!" :: ws1 ++ key ++ ws2) =
  Some ({| Requirements :=
             [{| Key := key; Value := []; Values := [];
                 Operation_ := OperationNotExists |}] |}, None).
Proof.
  intros Hkey Hws. rewrite !forallb_app in Hws.
  apply andb_true_iff in Hws. destruct Hws as [H0 Hws].
  apply andb_true_iff in Hws. destruct Hws as [H1 H2].
  apply forallb_ws in H0, H1, H2.
  set (input := ws0 ++ chr "!" :: ws1 ++ key ++ ws2).
  destruct (clause_not_exists_key (S (List.length input)) (NewLexer input)
              ws0 ws1 key ws2) as [s' [E Hs']]; auto using stops_ident_ws.
  apply (ParseString_Emit input _ s' E). now rewrite Hs'.
Qed.

Lemma not_exists_parses_witness :
  isIdentifier (runes "baz") = true /\
  forallb isWhitespace (runes " " ++ runes " " ++ []) = true /\
  ParseString (runes " " ++ chr "!" :: runes " " ++ runes "baz" ++ []) =
  Some ({| Requirements :=
             [{| Key := runes "baz"; Value := []; Values := [];
                 Operation_ := OperationNotExists |}] |}, None).
Proof.
  split; [reflexivity|]. split; [reflexivity|].
  apply (not_exists_parses (runes " ") (runes " ") (runes "baz") []);
    reflexivity.
Defined.

(** An exclamation mark at the end of the input is rejected: an identifier
    is expected after it. *)
Theorem not_exists_operand_missing ws0 ws1 :
  forallb isWhitespace (ws0 ++ ws1) = true ->
  ParseString (ws0 ++ chr "!" :: ws1) =
  Some ({| Requirements := [] |},
        errors_New "expect identifier after exclamation mark").
Proof.
  intros Hws. rewrite !forallb_app in Hws.
  apply andb_true_iff in Hws. destruct Hws as [H0 H1].
  apply forallb_ws in H0, H1.
  set (input := ws0 ++ chr "!" :: ws1).
  destruct (clause_not_exists_missing (S (List.length input)) (NewLexer input)
              ws0 ws1) as [s' E]; auto.
  apply (ParseString_Stop input _ s' E).
Qed.

Lemma not_exists_operand_missing_witness :
  forallb isWhitespace ([] ++ runes "  ") = true /\
  ParseString ([] ++ chr "!" :: runes "  ") =
  Some ({| Requirements := [] |},
        errors_New "expect identifier after exclamation mark").
Proof.
  split; [reflexivity|].
  apply (not_exists_operand_missing [] (runes "  ")). reflexivity.
Defined.

Lemma stopsb_stops p rest : stopsb p rest = true -> stops p rest.
Proof.
  destruct rest as [|c r]; simpl; [auto|]. intro H.
  apply andb_true_iff in H. destruct H as [Hp Hc].
  apply negb_true_iff in Hp, Hc. apply Z.eqb_neq in Hc. auto.
Qed.

(** Two identifiers that only whitespace separates are rejected, whatever
    follows the second one: the error quotes the second identifier as the
    unexpected token, and the selector is empty. *)
Theorem two_identifiers_rejected ws0 key ws1 other rest :
  isIdentifier key = true ->
  isIdentifier other = true ->
  forallb isWhitespace (ws0 ++ ws1) = true ->
  (0 < List.length ws1)%nat ->
  stopsb isValidIdentRune rest = true ->
  ParseString (ws0 ++ key ++ ws1 ++ other ++ rest) =
  Some ({| Requirements := [] |}, Errorf "unexpected token '" other "'").
Proof.
  intros Hkey Hother Hws Hne Hrest. rewrite !forallb_app in Hws.
  apply andb_true_iff in Hws. destruct Hws as [H0 H1].
  apply forallb_ws in H0, H1. apply stopsb_stops in Hrest.
  set (input := ws0 ++ key ++ ws1 ++ other ++ rest).
  destruct (clause_two_identifiers (S (List.length input)) (NewLexer input)
              ws0 key ws1 other rest) as [s' E]; auto.
  { destruct ws1; [simpl in Hne; lia | discriminate]. }
  apply (ParseString_Stop input _ s' E).
Qed.

Lemma two_identifiers_rejected_witness :
  isIdentifier (runes "foo") = true /\
  isIdentifier (runes "bar") = true /\
  forallb isWhitespace ([] ++ runes " ") = true /\
  (0 < List.length (runes " "))%nat /\
  stopsb isValidIdentRune (runes ", baz") = true /\
  ParseString ([] ++ runes "foo" ++ runes " " ++ runes "bar" ++ runes ", baz") =
  Some ({| Requirements := [] |},
        Errorf "unexpected token '" (runes "bar") "'").
Proof.
  split; [reflexivity|]. split; [reflexivity|]. split; [reflexivity|].
  split; [simpl; lia|]. split; [reflexivity|].
  apply (two_identifiers_rejected [] (runes "foo") (runes " ") (runes "bar")
           (runes ", baz")); try reflexivity.
  simpl. lia.
Defined.

(** A key followed by [not] and then by an identifier is rejected, whatever
    follows: the error quotes the identifier that stands where [IN] was
    required. *)
Theorem not_without_in_rejected ws0 key ws1 ws2 other rest :
  isIdentifier key = true ->
  isIdentifier other = true ->
  forallb isWhitespace (ws0 ++ ws1 ++ ws2) = true ->
  (0 < List.length ws1)%nat ->
  (0 < List.length ws2)%nat ->
  stopsb isValidIdentRune rest = true ->
  ParseString (ws0 ++ key ++ ws1 ++ runes "not" ++ ws2 ++ other ++ rest) =
  Some ({| Requirements := [] |},
        Errorf "require 'IN' after 'NOT' got '" other "'").
Proof.
  intros Hkey Hother Hws Hne1 Hne2 Hrest. rewrite !forallb_app in Hws.
  apply andb_true_iff in Hws. destruct Hws as [H0 Hws].
  apply andb_true_iff in Hws. destruct Hws as [H1 H2].
  apply forallb_ws in H0, H1, H2. apply stopsb_stops in Hrest.
  set (input := ws0 ++ key ++ ws1 ++ runes "not" ++ ws2 ++ other ++ rest).
  destruct (clause_not_without_in (S (List.length input)) (NewLexer input)
              ws0 key ws1 ws2 other rest) as [s' E]; auto.
  { destruct ws1; [simpl in Hne1; lia | discriminate]. }
  { destruct ws2; [simpl in Hne2; lia | discriminate]. }
  apply (ParseString_Stop input _ s' E).
Qed.

Lemma not_without_in_rejected_witness :
  isIdentifier (runes "foo") = true /\
  isIdentifier (runes "a") = true /\
  forallb isWhitespace ([] ++ runes " " ++ runes " ") = true /\
  (0 < List.length (runes " "))%nat /\
  (0 < List.length (runes " "))%nat /\
  stopsb isValidIdentRune (runes ",b") = true /\
  ParseString ([] ++ runes "foo" ++ runes " " ++ runes "not" ++ runes " " ++
               runes "a" ++ runes ",b") =
  Some ({| Requirements := [] |},
        Errorf "require 'IN' after 'NOT' got '" (runes "a") "'").
Proof.
  split; [reflexivity|]. split; [reflexivity|]. split; [reflexivity|].
  split; [simpl; lia|]. split; [simpl; lia|]. split; [reflexivity|].
  apply (not_without_in_rejected [] (runes "foo") (runes " ") (runes " ")
           (runes "a") (runes ",b")); try reflexivity; simpl; lia.
Defined.

(** A text between double quotes is a key as it stands, whatever runes it
    is made of (whitespace, commas, operators, a keyword), as long as it
    holds no double quote or [eof] sentinel and does not end in a backslash:
    the input parses to the single requirement [exists] of that text. *)
Theorem quoted_key_parses ws0 lit ws1 :
  isPlainQuoted lit = true ->
  forallb isWhitespace (ws0 ++ ws1) = true ->
  ParseString (ws0 ++ dquote :: lit ++ dquote :: ws1) =
  Some ({| Requirements := [existsRequirement lit] |}, None).
Proof.
  intros Hlit Hws. rewrite !forallb_app in Hws.
  apply andb_true_iff in Hws. destruct Hws as [H0 H1].
  apply forallb_ws in H0, H1.
  set (input := ws0 ++ dquote :: lit ++ dquote :: ws1).
  destruct (clause_quoted_key (S (List.length input)) (NewLexer input)
              ws0 lit ws1) as [s' [E Hs']]; auto.
  apply (ParseString_Emit input _ s' E). rewrite Hs'. constructor.
Qed.

Lemma quoted_key_parses_witness :
  isPlainQuoted (runes "not in, (foo = bar)") = true /\
  forallb isWhitespace (runes " " ++ []) = true /\
  ParseString (runes " " ++ dquote :: runes "not in, (foo = bar)" ++
               dquote :: []) =
  Some ({| Requirements := [existsRequirement (runes "not in, (foo = bar)")] |},
        None).
Proof.
  split; [reflexivity|]. split; [reflexivity|].
  apply (quoted_key_parses (runes " ") (runes "not in, (foo = bar)") []);
    reflexivity.
Defined.

Lemma wellSpaced_stops sep items tailR :
  forallb isSeparatorRune sep = true ->
  match items, sep with
  | _ :: _, [] => false
  | _, _ => true
  end = true ->
  stops isValidIdentRune tailR ->
  stops isValidIdentRune (identifierList sep items ++ tailR).
Proof.
  intros Hsep Hsp Htail. destruct sep as [|c sep].
  - destruct items as [|[id sep'] items]; [exact Htail | discriminate Hsp].
  - rewrite identifierList_lead. simpl in *.
    apply andb_true_iff in Hsep. destruct Hsep as [Hc _].
    now apply separator_not_ident.
Qed.

Section ValueLists.

Variable N : nat.

Lemma parseIdentList_loop_comma k acc s lit s1 :
  next N s = Some ((COMMA, lit), s1) ->
  parseIdentList_loop N (S k) acc s = parseIdentList_loop N k acc s1.
Proof. intro H. simpl. unfold bind. rewrite H. reflexivity. Qed.

Lemma parseIdentList_loop_ident k acc s lit s1 :
  next N s = Some ((IDENT, lit), s1) ->
  parseIdentList_loop N (S k) acc s =
  parseIdentList_loop N k (acc ++ [lit]) s1.
Proof. intro H. simpl. unfold bind. rewrite H. reflexivity. Qed.

Lemma parseIdentList_loop_eof k acc s lit s1 :
  next N s = Some ((EOF, lit), s1) ->
  parseIdentList_loop N (S k) acc s =
  Some (([], Errorf "unexpected token in value list (" lit ")"), s1).
Proof. intro H. simpl. unfold bind. rewrite H. reflexivity. Qed.

(** What the loop of [parseIdentList] returns on the items of a list, given
    what it returns, [fin], on what follows them, [tailR]. *)
Section Items.

Variable tailR restR : list rune.
Variable fin : list GoString -> list GoString * error.
Hypothesis tail_stops : stops isValidIdentRune tailR.
Hypothesis tail_fin : forall ws s k acc,
  Forall (fun c => isWhitespace c = true) ws ->
  pending s = ws ++ tailR ->
  (List.length (pending s) < k)%nat ->
  (List.length (pending s) < N)%nat ->
  exists s', parseIdentList_loop N k acc s = Some (fin acc, s') /\
             pending s' = restR.

Lemma parseIdentList_loop_skip tail result :
  (forall ws s k acc,
     Forall (fun c => isWhitespace c = true) ws ->
     pending s = ws ++ tail ->
     (List.length (pending s) < k)%nat ->
     (List.length (pending s) < N)%nat ->
     exists s', parseIdentList_loop N k acc s = Some (result acc, s') /\
                pending s' = restR) ->
  forall n lead s k acc,
    (List.length lead <= n)%nat ->
    forallb isSeparatorRune lead = true ->
    pending s = lead ++ tail ->
    (List.length (pending s) < k)%nat ->
    (List.length (pending s) < N)%nat ->
    exists s', parseIdentList_loop N k acc s = Some (result acc, s') /\
               pending s' = restR.
Proof.
  intros HQ. induction n as [|n IH]; intros lead s k acc Hn Hlead Hp Hk HN.
  - destruct lead; [|simpl in Hn; lia].
    apply (HQ [] s k); auto.
  - destruct (separator_split lead Hlead) as [Hall|(ws & l' & -> & Hws & Hl')].
    + apply (HQ lead s k); auto.
    + rewrite <- app_assoc in Hp. simpl in Hp.
      destruct (next_comma N s ws (l' ++ tail)) as [s1 [E Hs1]]; auto.
      destruct k as [|k]; [lia|].
      rewrite (parseIdentList_loop_comma k acc s _ s1 E).
      assert (Hlen : List.length (pending s) =
                     (List.length ws + S (List.length (pending s1)))%nat)
        by (rewrite Hp, Hs1, length_app; reflexivity).
      rewrite length_app in Hn. simpl in Hn.
      apply (IH l' s1 k); auto; lia.
Qed.

Lemma parseIdentList_loop_items items : forall lead acc s k,
  forallb isSeparatorRune lead = true ->
  wellSpaced items = true ->
  pending s = identifierList lead items ++ tailR ->
  (List.length (pending s) < k)%nat ->
  (List.length (pending s) < N)%nat ->
  exists s',
    parseIdentList_loop N k acc s = Some (fin (acc ++ map fst items), s') /\
    pending s' = restR.
Proof.
  induction items as [|[id sep] items IH];
    intros lead acc s k Hlead Hwf Hp Hk HN.
  - simpl in Hp. simpl map. rewrite app_nil_r.
    apply (fun HQ => parseIdentList_loop_skip tailR fin HQ
                       (List.length lead) lead s k acc
                       (le_n _) Hlead Hp Hk HN).
    exact tail_fin.
  - simpl in Hp, Hwf. rewrite <- !app_assoc in Hp.
    apply andb_true_iff in Hwf. destruct Hwf as [Hwf Hitems].
    apply andb_true_iff in Hwf. destruct Hwf as [Hwf Hsp].
    apply andb_true_iff in Hwf. destruct Hwf as [Hid Hsep].
    destruct (isIdentifier_inv _ Hid) as (Hne & Hall & _).
    apply (fun HQ => parseIdentList_loop_skip
                       (id ++ identifierList sep items ++ tailR)
                       (fun acc => fin (acc ++ map fst ((id, sep) :: items)))
                       HQ (List.length lead) lead s k acc
                       (le_n _) Hlead Hp Hk HN).
    clear dependent s. clear k acc.
    intros ws s k acc Hws Hp Hk HN.
    destruct (next_identifier N s ws id (identifierList sep items ++ tailR))
      as [s1 [E Hs1]]; auto using wellSpaced_stops.
    assert (Hlen : (List.length (pending s1) < List.length (pending s))%nat).
    { rewrite Hs1, Hp, !length_app. destruct id; [congruence | simpl; lia]. }
    destruct k as [|k]; [lia|].
    rewrite (parseIdentList_loop_ident k acc s id s1 E).
    destruct (IH sep (acc ++ [id]) s1 k) as [s' [E' Hs']]; auto; try lia.
    exists s'. rewrite E'. simpl. rewrite <- app_assoc. auto.
Qed.

End Items.

Lemma parseIdentList_closed items lead rest s :
  forallb isSeparatorRune lead = true ->
  wellSpaced items = true ->
  pending s = identifierList lead items ++ chr ")" :: rest ->
  (List.length (pending s) < N)%nat ->
  exists s',
    parseIdentList N s = Some ((map fst items, None), s') /\
    pending s' = rest.
Proof.
  intros Hlead Hwf Hp HN. unfold parseIdentList.
  apply (parseIdentList_loop_items (chr ")" :: rest) rest
           (fun acc => (acc, None))) with (lead := lead) (acc := @nil GoString);
    auto.
  - split; [reflexivity | discriminate].
  - intros ws s0 k acc Hws Hp0 Hk0 HN0.
    destruct (next_of_Next N s0 ws (chr ")" :: rest)
                (CLOSING_BRACKET, runes ")") rest) as [s1 [E Hs1]]; auto.
    { split; [reflexivity | discriminate]. }
    { discriminate. }
    { intros s2 H2. now apply Next_closing. }
    destruct k as [|k]; [lia|].
    rewrite (parseIdentList_loop_closing N k acc s0 _ s1 E). eauto.
Qed.

Lemma parseIdentList_open items lead s :
  forallb isSeparatorRune lead = true ->
  wellSpaced items = true ->
  pending s = identifierList lead items ->
  (List.length (pending s) < N)%nat ->
  exists s',
    parseIdentList N s =
    Some (([], Errorf "unexpected token in value list (" [] ")"), s').
Proof.
  intros Hlead Hwf Hp HN. unfold parseIdentList.
  destruct (parseIdentList_loop_items [] []
              (fun _ => ([], Errorf "unexpected token in value list (" [] ")"))
              I) with (items := items) (lead := lead) (acc := @nil GoString)
              (s := s) (k := N) as [s' [E _]]; auto.
  - intros ws s0 k acc Hws Hp0 Hk0 HN0. rewrite app_nil_r in Hp0.
    destruct (next_eof N s0 ws) as [s1 [E Hs1]]; auto.
    destruct k as [|k]; [lia|].
    rewrite (parseIdentList_loop_eof k acc s0 _ s1 E). eauto.
  - now rewrite app_nil_r.
  - eauto.
Qed.

Lemma parseInRequirement_list key s ws lead items rest :
  Forall (fun c => isWhitespace c = true) ws ->
  forallb isSeparatorRune lead = true ->
  wellSpaced items = true ->
  pending s = ws ++ chr "(" :: identifierList lead items ++ chr ")" :: rest ->
  (List.length (pending s) < N)%nat ->
  exists s',
    parseInRequirement N key s =
      Some (({| Key := key; Value := []; Values := map fst items;
                Operation_ := OperationIn |}, None), s') /\
    pending s' = rest.
Proof.
  intros Hws Hlead Hwf Hp HN.
  destruct (next_of_Next N s ws
              (chr "(" :: identifierList lead items ++ chr ")" :: rest)
              (OPENING_BRACKET, runes "(")
              (identifierList lead items ++ chr ")" :: rest))
    as [s1 [E1 Hs1]]; auto.
  { split; [reflexivity | discriminate]. }
  { discriminate. }
  { intros s0 H0. now apply Next_opening. }
  destruct (parseIdentList_closed items lead rest s1) as [s2 [E2 Hs2]]; auto.
  { fuel. }
  exists s2. split; [|exact Hs2].
  unfold parseInRequirement, bind. rewrite E1, E2. reflexivity.
Qed.

Lemma parseInRequirement_unterminated key s ws lead items :
  Forall (fun c => isWhitespace c = true) ws ->
  forallb isSeparatorRune lead = true ->
  wellSpaced items = true ->
  pending s = ws ++ chr "(" :: identifierList lead items ->
  (List.length (pending s) < N)%nat ->
  exists s',
    parseInRequirement N key s =
      Some (({| Key := key; Value := []; Values := [];
                Operation_ := OperationIn |},
             Errorf "unexpected token in value list (" [] ")"), s').
Proof.
  intros Hws Hlead Hwf Hp HN.
  destruct (next_of_Next N s ws (chr "(" :: identifierList lead items)
              (OPENING_BRACKET, runes "(") (identifierList lead items))
    as [s1 [E1 Hs1]]; auto.
  { split; [reflexivity | discriminate]. }
  { discriminate. }
  { intros s0 H0. now apply Next_opening. }
  destruct (parseIdentList_open items lead s1) as [s2 E2]; auto.
  { fuel. }
  exists s2. unfold parseInRequirement, bind. rewrite E1, E2. reflexivity.
Qed.

End ValueLists.

Section SetClauses.

Variable N : nat.

Lemma clause_in s ws0 key ws1 ws2 lead items rest :
  isIdentifier key = true ->
  Forall (fun c => isWhitespace c = true) ws0 ->
  Forall (fun c => isWhitespace c = true) ws1 ->
  Forall (fun c => isWhitespace c = true) ws2 ->
  ws1 <> [] ->
  forallb isSeparatorRune lead = true ->
  wellSpaced items = true ->
  pending s = ws0 ++ key ++ ws1 ++ runes "in" ++ ws2 ++
              chr "(" :: identifierList lead items ++ chr ")" :: rest ->
  (List.length (pending s) < N)%nat ->
  exists s',
    clause N s =
      Some (Emit {| Key := key; Value := []; Values := map fst items;
                    Operation_ := OperationIn |}, s') /\
    pending s' = rest.
Proof.
  intros Hkey H0 H1 H2 Hne Hlead Hwf Hp HN.
  destruct (next_identifier N s ws0 key
              (ws1 ++ runes "in" ++ ws2 ++
               chr "(" :: identifierList lead items ++ chr ")" :: rest))
    as [s1 [E1 Hs1]]; auto using stops_ident_nonempty_ws.
  destruct (next_keyword N s1 ws1 (runes "in")
              (ws2 ++ chr "(" :: identifierList lead items ++ chr ")" :: rest))
    as [s2 [E2 Hs2]]; auto.
  { apply stops_ident_app; [assumption|].
    split; [reflexivity | discriminate]. }
  { fuel. }
  destruct (parseInRequirement_list N key s2 ws2 lead items rest)
    as [s3 [E3 Hs3]]; auto.
  { fuel. }
  exists s3. split; [|exact Hs3].
  now rewrite (clause_sub N s key s1 IN _ s2 parseInRequirement _ s3
                 E1 E2 eq_refl E3).
Qed.

Lemma clause_not_in s ws0 key ws1 ws2 ws3 lead items rest :
  isIdentifier key = true ->
  Forall (fun c => isWhitespace c = true) ws0 ->
  Forall (fun c => isWhitespace c = true) ws1 ->
  Forall (fun c => isWhitespace c = true) ws2 ->
  Forall (fun c => isWhitespace c = true) ws3 ->
  ws1 <> [] -> ws2 <> [] ->
  forallb isSeparatorRune lead = true ->
  wellSpaced items = true ->
  pending s = ws0 ++ key ++ ws1 ++ runes "not" ++ ws2 ++ runes "in" ++ ws3 ++
              chr "(" :: identifierList lead items ++ chr ")" :: rest ->
  (List.length (pending s) < N)%nat ->
  exists s',
    clause N s =
      Some (Emit {| Key := key; Value := []; Values := map fst items;
                    Operation_ := OperationNotIn |}, s') /\
    pending s' = rest.
Proof.
  intros Hkey H0 H1 H2 H3 Hne1 Hne2 Hlead Hwf Hp HN.
  destruct (next_identifier N s ws0 key
              (ws1 ++ runes "not" ++ ws2 ++ runes "in" ++ ws3 ++
               chr "(" :: identifierList lead items ++ chr ")" :: rest))
    as [s1 [E1 Hs1]]; auto using stops_ident_nonempty_ws.
  destruct (next_keyword N s1 ws1 (runes "not")
              (ws2 ++ runes "in" ++ ws3 ++
               chr "(" :: identifierList lead items ++ chr ")" :: rest))
    as [s2 [E2 Hs2]]; auto using stops_ident_nonempty_ws.
  { fuel. }
  destruct (next_keyword N s2 ws2 (runes "in")
              (ws3 ++ chr "(" :: identifierList lead items ++ chr ")" :: rest))
    as [s3 [E3 Hs3]]; auto.
  { apply stops_ident_app; [assumption|].
    split; [reflexivity | discriminate]. }
  { fuel. }
  destruct (parseInRequirement_list N key s3 ws3 lead items rest)
    as [s4 [E4 Hs4]]; auto.
  { fuel. }
  exists s4. split; [|exact Hs4].
  rewrite (clause_sub N s key s1 NOT _ s2 parseNotInRequirement
             ({| Key := key; Value := []; Values := map fst items;
                 Operation_ := OperationNotIn |}, None) s4 E1 E2 eq_refl);
    [reflexivity|].
  unfold parseNotInRequirement, bind. rewrite E3. simpl. rewrite E4.
  reflexivity.
Qed.

Lemma clause_in_unterminated s ws0 key ws1 ws2 lead items :
  isIdentifier key = true ->
  Forall (fun c => isWhitespace c = true) ws0 ->
  Forall (fun c => isWhitespace c = true) ws1 ->
  Forall (fun c => isWhitespace c = true) ws2 ->
  ws1 <> [] ->
  forallb isSeparatorRune lead = true ->
  wellSpaced items = true ->
  pending s = ws0 ++ key ++ ws1 ++ runes "in" ++ ws2 ++
              chr "(" :: identifierList lead items ->
  (List.length (pending s) < N)%nat ->
  exists s',
    clause N s =
      Some (Stop (Errorf "unexpected token in value list (" [] ")"), s').
Proof.
  intros Hkey H0 H1 H2 Hne Hlead Hwf Hp HN.
  destruct (next_identifier N s ws0 key
              (ws1 ++ runes "in" ++ ws2 ++
               chr "(" :: identifierList lead items))
    as [s1 [E1 Hs1]]; auto using stops_ident_nonempty_ws.
  destruct (next_keyword N s1 ws1 (runes "in")
              (ws2 ++ chr "(" :: identifierList lead items))
    as [s2 [E2 Hs2]]; auto.
  { apply stops_ident_app; [assumption|].
    split; [reflexivity | discriminate]. }
  { fuel. }
  destruct (parseInRequirement_unterminated N key s2 ws2 lead items)
    as [s3 E3]; auto.
  { fuel. }
  exists s3.
  now rewrite (clause_sub N s key s1 IN _ s2 parseInRequirement _ s3
                 E1 E2 eq_refl E3).
Qed.

End SetClauses.

Ltac split_ws Hws :=
  rewrite !forallb_app in Hws;
  repeat match type of Hws with
  | _ && _ = true =>
      let H := fresh "Hws" in
      apply andb_true_iff in Hws; destruct Hws as [H Hws];
      apply forallb_ws in H
  end;
  apply forallb_ws in Hws.

Lemma length_pos_nonempty {A} (l : list A) : (0 < List.length l)%nat -> l <> [].
Proof. destruct l; [simpl; lia | discriminate]. Qed.

(** A key, [in] and a bracketed list of identifiers parse without error to
    the single requirement [in] of that key, whose values are the
    identifiers in the order of the input, duplicates included.  In the
    list, commas are optional and may be repeated: whitespace separates two
    identifiers as well. *)
Theorem in_list_parses ws0 key ws1 ws2 lead items ws3 :
  isIdentifier key = true ->
  forallb isWhitespace (ws0 ++ ws1 ++ ws2 ++ ws3) = true ->
  (0 < List.length ws1)%nat ->
  forallb isSeparatorRune lead = true ->
  wellSpaced items = true ->
  ParseString (ws0 ++ key ++ ws1 ++ runes "in" ++ ws2 ++
               chr "(" :: identifierList lead items ++ chr ")" :: ws3) =
  Some ({| Requirements :=
             [{| Key := key; Value := []; Values := map fst items;
                 Operation_ := OperationIn |}] |}, None).
Proof.
  intros Hkey Hws Hne Hlead Hwf. split_ws Hws.
  apply length_pos_nonempty in Hne.
  set (input := ws0 ++ key ++ ws1 ++ runes "in" ++ ws2 ++
                chr "(" :: identifierList lead items ++ chr ")" :: ws3).
  destruct (clause_in (S (List.length input)) (NewLexer input)
              ws0 key ws1 ws2 lead items ws3) as [s' [E Hs']]; auto.
  apply (ParseString_Emit input _ s' E). now rewrite Hs'.
Qed.

Lemma in_list_parses_witness :
  isIdentifier (runes "tier") = true /\
  forallb isWhitespace ([] ++ runes " " ++ [] ++ []) = true /\
  (0 < List.length (runes " "))%nat /\
  forallb isSeparatorRune (runes " ,") = true /\
  wellSpaced [(runes "a", runes " "); (runes "b", runes ",, ");
              (runes "a", [])] = true /\
  ParseString ([] ++ runes "tier" ++ runes " " ++ runes "in" ++ [] ++
               chr "(" ::
               identifierList (runes " ,")
                 [(runes "a", runes " "); (runes "b", runes ",, ");
                  (runes "a", [])] ++
               chr ")" :: []) =
  Some ({| Requirements :=
             [{| Key := runes "tier"; Value := [];
                 Values :=
                   map fst [(runes "a", runes " "); (runes "b", runes ",, ");
                            (runes "a", @nil rune)];
                 Operation_ := OperationIn |}] |}, None).
Proof.
  split; [reflexivity|]. split; [reflexivity|]. split; [simpl; lia|].
  split; [reflexivity|]. split; [reflexivity|].
  apply (in_list_parses [] (runes "tier") (runes " ") [] (runes " ,")
           [(runes "a", runes " "); (runes "b", runes ",, "); (runes "a", [])]
           []); try reflexivity.
  simpl. lia.
Defined.

(** The same with [not in]: the single requirement is [notIn], with the
    identifiers of the list as its values, in order. *)
Theorem not_in_list_parses ws0 key ws1 ws2 ws3 lead items ws4 :
  isIdentifier key = true ->
  forallb isWhitespace (ws0 ++ ws1 ++ ws2 ++ ws3 ++ ws4) = true ->
  (0 < List.length ws1)%nat ->
  (0 < List.length ws2)%nat ->
  forallb isSeparatorRune lead = true ->
  wellSpaced items = true ->
  ParseString (ws0 ++ key ++ ws1 ++ runes "not" ++ ws2 ++ runes "in" ++ ws3 ++
               chr "(" :: identifierList lead items ++ chr ")" :: ws4) =
  Some ({| Requirements :=
             [{| Key := key; Value := []; Values := map fst items;
                 Operation_ := OperationNotIn |}] |}, None).
Proof.
  intros Hkey Hws Hne1 Hne2 Hlead Hwf. split_ws Hws.
  apply length_pos_nonempty in Hne1, Hne2.
  set (input := ws0 ++ key ++ ws1 ++ runes "not" ++ ws2 ++ runes "in" ++ ws3 ++
                chr "(" :: identifierList lead items ++ chr ")" :: ws4).
  destruct (clause_not_in (S (List.length input)) (NewLexer input)
              ws0 key ws1 ws2 ws3 lead items ws4) as [s' [E Hs']]; auto.
  apply (ParseString_Emit input _ s' E). now rewrite Hs'.
Qed.

Lemma not_in_list_parses_witness :
  isIdentifier (runes "tier") = true /\
  forallb isWhitespace ([] ++ runes " " ++ runes " " ++ runes " " ++ []) =
    true /\
  (0 < List.length (runes " "))%nat /\
  (0 < List.length (runes " "))%nat /\
  forallb isSeparatorRune [] = true /\
  wellSpaced [(runes "a", runes ","); (runes "b", [])] = true /\
  ParseString ([] ++ runes "tier" ++ runes " " ++ runes "not" ++ runes " " ++
               runes "in" ++ runes " " ++
               chr "(" ::
               identifierList [] [(runes "a", runes ","); (runes "b", [])] ++
               chr ")" :: []) =
  Some ({| Requirements :=
             [{| Key := runes "tier"; Value := [];
                 Values := map fst [(runes "a", runes ",");
                                    (runes "b", @nil rune)];
                 Operation_ := OperationNotIn |}] |}, None).
Proof.
  split; [reflexivity|]. split; [reflexivity|]. split; [simpl; lia|].
  split; [simpl; lia|]. split; [reflexivity|]. split; [reflexivity|].
  apply (not_in_list_parses [] (runes "tier") (runes " ") (runes " ")
           (runes " ") [] [(runes "a", runes ","); (runes "b", [])] []);
    try reflexivity; simpl; lia.
Defined.

(** A value list that the input ends before its closing bracket is rejected:
    the end of the input is the unexpected token of the list, with an empty
    literal, and the selector is empty. *)
Theorem unterminated_list_rejected ws0 key ws1 ws2 lead items :
  isIdentifier key = true ->
  forallb isWhitespace (ws0 ++ ws1 ++ ws2) = true ->
  (0 < List.length ws1)%nat ->
  forallb isSeparatorRune lead = true ->
  wellSpaced items = true ->
  ParseString (ws0 ++ key ++ ws1 ++ runes "in" ++ ws2 ++
               chr "(" :: identifierList lead items) =
  Some ({| Requirements := [] |},
        Errorf "unexpected token in value list (" [] ")").
Proof.
  intros Hkey Hws Hne Hlead Hwf. split_ws Hws.
  apply length_pos_nonempty in Hne.
  set (input := ws0 ++ key ++ ws1 ++ runes "in" ++ ws2 ++
                chr "(" :: identifierList lead items).
  destruct (clause_in_unterminated (S (List.length input)) (NewLexer input)
              ws0 key ws1 ws2 lead items) as [s' E]; auto.
  apply (ParseString_Stop input _ s' E).
Qed.

Lemma unterminated_list_rejected_witness :
  isIdentifier (runes "foo") = true /\
  forallb isWhitespace ([] ++ runes " " ++ runes " ") = true /\
  (0 < List.length (runes " "))%nat /\
  forallb isSeparatorRune [] = true /\
  wellSpaced [(runes "a", runes ", "); (runes "b", [])] = true /\
  ParseString ([] ++ runes "foo" ++ runes " " ++ runes "in" ++ runes " " ++
               chr "(" ::
               identifierList [] [(runes "a", runes ", "); (runes "b", [])]) =
  Some ({| Requirements := [] |},
        Errorf "unexpected token in value list (" [] ")").
Proof.
  split; [reflexivity|]. split; [reflexivity|]. split; [simpl; lia|].
  split; [reflexivity|]. split; [reflexivity|].
  apply (unterminated_list_rejected [] (runes "foo") (runes " ") (runes " ")
           [] [(runes "a", runes ", "); (runes "b", [])]);
    try reflexivity.
  simpl. lia.
Defined.

(** A rune of no token family at the start of a clause, after any commas
    and whitespace, makes [Parse] fail with [illegal token] and the empty
    selector, whatever follows it. *)
Theorem illegal_rune_rejected lead c rest :
  forallb isSeparatorRune lead = true ->
  isIllegalRune c = true ->
  ParseString (lead ++ c :: rest) =
  Some ({| Requirements := [] |}, errors_New "illegal token").
Proof.
  intros Hlead Hc. unfold ParseString, Parse.
  set (input := lead ++ c :: rest).
  set (N := S (List.length (pending (NewLexer input)))).
  destruct (Parse_loop_skip N (c :: rest) {| Requirements := [] |}
              ({| Requirements := [] |}, errors_New "illegal token"))
    with (n := List.length lead) (lead := lead) (s := NewLexer input) (k := N)
    as [s' E]; auto.
  - intros ws s k Hws Hp Hk HN.
    destruct (next_of_Next N s ws (c :: rest) (ILLEGAL, [c]) rest)
      as [s1 [E1 Hs1]]; auto.
    { unfold isIllegalRune in Hc. apply negb_true_iff in Hc.
      do 8 (apply orb_false_iff in Hc; destruct Hc as [Hc ?]).
      split; [assumption|]. intro. subst c. discriminate. }
    { discriminate. }
    { intros s0 H0. now apply Next_illegal. }
    destruct k as [|k]; [lia|].
    rewrite (Parse_loop_illegal N k _ s _ s1 E1). eauto.
  - now rewrite E.
Qed.

Lemma illegal_rune_rejected_witness :
  forallb isSeparatorRune (runes ", ") = true /\
  isIllegalRune 10084 = true /\
  ParseString (runes ", " ++ 10084 :: runes "=x") =
  Some ({| Requirements := [] |}, errors_New "illegal token").
Proof.
  split; [reflexivity|]. split; [reflexivity|].
  apply (illegal_rune_rejected (runes ", ") 10084 (runes "=x")); reflexivity.
Defined.

(** A run of whitespace, up to the end of the input or to the first rune
    that is no whitespace, is one [WS] token whose literal is the run. *)
Theorem whitespace_run_token N s ws rest :
  pending s = ws ++ rest ->
  (0 < List.length ws)%nat ->
  forallb isWhitespace ws = true ->
  endsRun isWhitespace rest = true ->
  (List.length (pending s) < N)%nat ->
  exists s', Next N s = Some ((WS, ws), s') /\ pending s' = afterRun rest.
Proof.
  intros Hp Hne Hws Hend HN. destruct ws as [|c ws]; [simpl in Hne; lia|].
  apply forallb_ws in Hws. inversion Hws as [|? ? Hc Hws']; subst.
  simpl in Hp. unfold Next, bind. rewrite (read_cons _ _ _ Hp), Hc.
  unfold unread, UnreadRune, scanWhitespace, bind. simpl.
  destruct (scanWhitespace_loop_exact ws N [c] rest
              {| pending := ws ++ rest; lastRune := Some c |})
    as [s' [E Hs']]; auto.
  { rewrite Hp in HN. simpl in HN. rewrite length_app in HN. lia. }
  rewrite E. simpl. exists s'. auto.
Qed.

Lemma whitespace_run_token_witness :
  pending (NewLexer (runes "  x")) = runes "  " ++ runes "x" /\
  (0 < List.length (runes "  "))%nat /\
  forallb isWhitespace (runes "  ") = true /\
  endsRun isWhitespace (runes "x") = true /\
  (List.length (pending (NewLexer (runes "  x"))) < 4)%nat /\
  exists s',
    Next 4 (NewLexer (runes "  x")) = Some ((WS, runes "  "), s') /\
    pending s' = afterRun (runes "x").
Proof.
  split; [reflexivity|]. split; [simpl; lia|]. split; [reflexivity|].
  split; [reflexivity|]. split; [simpl; lia|].
  apply (whitespace_run_token 4 (NewLexer (runes "  x")) (runes "  ")
           (runes "x")); try reflexivity; simpl; lia.
Defined.

Lemma Forall_forallb_true {A} (f : A -> bool) l :
  Forall (fun c => f c = true) l -> forallb f l = true.
Proof. intro H. apply forallb_forall. now apply Forall_forall. Qed.

(** Every requirement of a selector that [ParseString] returns, with an
    error or without, populates the fields of its operation only: never
    both [Value] and [Values], and neither of them for [exists] and
    [notExist]. *)
Theorem requirements_well_formed input :
  exists selector err,
    ParseString input = Some (selector, err) /\
    forallb wellFormed (Requirements selector) = true.
Proof.
  unfold ParseString, Parse.
  set (N := S (List.length (pending (NewLexer input)))).
  destruct (Parse_loop_run N (fun req => wellFormed req = true))
    with (k := N) (sel := {| Requirements := [] |}) (s := NewLexer input)
    as (sel & err & s' & E & F & _); try (subst N; lia).
  { intros s req s0 HN H.
    apply (clause_emits N (fun req => wellFormed req = true) s req s0);
      auto.
    - intros tok p key s2 r s3 Hp _ Hr.
      eapply clauseParser_wellFormed; eassumption.
    - apply parseNotExistsRequirement_wellFormed. }
  rewrite E. exists sel, err. split; [reflexivity|].
  apply Forall_forallb_true, F. constructor.
Qed.

(** With the tokens that [lexer.go] produces, no requirement of a selector
    that [ParseString] returns has the operation of an ordering operator:
    the four sub-parsers of these operators are never reached. *)
Theorem no_ordering_requirement input :
  exists selector err,
    ParseString input = Some (selector, err) /\
    forallb (fun req => negb (isOrdering (Operation_ req)))
      (Requirements selector) = true.
Proof.
  unfold ParseString, Parse.
  set (N := S (List.length (pending (NewLexer input)))).
  destruct (Parse_loop_run N
              (fun req => negb (isOrdering (Operation_ req)) = true))
    with (k := N) (sel := {| Requirements := [] |}) (s := NewLexer input)
    as (sel & err & s' & E & F & _); try (subst N; lia).
  { intros s req s0 HN H.
    apply (clause_emits N
             (fun req => negb (isOrdering (Operation_ req)) = true) s req s0);
      auto.
    - intros tok p key s2 r s3 Hp Hd Hr. apply negb_true_iff.
      eapply clauseParser_not_ordering; eassumption.
    - intros s1 r s2 Hr. apply negb_true_iff.
      eapply parseNotExistsRequirement_not_ordering; eassumption. }
  rewrite E. exists sel, err. split; [reflexivity|].
  apply (Forall_forallb_true
           (fun req => negb (isOrdering (Operation_ req)))), F.
  constructor.
Qed.

(** On an input without the [eof] sentinel rune, [Parse] returns [nil] only
    once the whole input has been read: nothing is left pending in the
    lexer. *)
Theorem success_consumes_input (input : GoString) :
  forallb (fun c => negb (c =? eof)) input = true ->
  exists selector err s',
    Parse_loop (S (List.length input)) (S (List.length input))
      {| Requirements := [] |} (NewLexer input) =
      Some ((selector, err), s') /\
    ParseString input = Some (selector, err) /\
    (err = None -> pending s' = []).
Proof.
  intro Hnul. unfold ParseString, Parse. cbv zeta. simpl pending.
  destruct (Parse_loop_run (S (List.length input)) (fun _ => True))
    with (k := S (List.length input)) (sel := {| Requirements := [] |})
         (s := NewLexer input)
    as (sel & err & s' & E & _ & C); auto.
  exists sel, err, s'. split; [exact E|].
  split; [now rewrite E|]. intro He.
  destruct (C He) as [H|H]; [exact H|].
  simpl in H. rewrite forallb_forall in Hnul. specialize (Hnul _ H).
  rewrite Z.eqb_refl in Hnul. discriminate Hnul.
Qed.

Lemma success_consumes_input_witness :
  forallb (fun c => negb (c =? eof)) (runes "foo, bar") = true /\
  exists selector err s',
    Parse_loop (S (List.length (runes "foo, bar")))
      (S (List.length (runes "foo, bar")))
      {| Requirements := [] |} (NewLexer (runes "foo, bar")) =
      Some ((selector, err), s') /\
    ParseString (runes "foo, bar") = Some (selector, err) /\
    (err = None -> pending s' = []).
Proof.
  split; [reflexivity|].
  apply (success_consumes_input (runes "foo, bar")). reflexivity.
Defined.

(** [Next] returns a token in every state; what it leaves pending is the
    input less a prefix that it consumed, and it consumes nothing only at
    the end of the input, where the token is [EOF] with an empty literal. *)
Theorem Next_progress N s :
  (List.length (pending s) < N)%nat ->
  exists tok lit s' consumed,
    Next N s = Some ((tok, lit), s') /\
    pending s = consumed ++ pending s' /\
    (consumed = [] -> tok = EOF /\ lit = [] /\ pending s = []).
Proof.
  intro HN.
  destruct (Next_total N s HN) as (tok & lit & s' & E & [q Hq] & Hadv & _).
  exists tok, lit, s', q. split; [exact E|]. split; [exact Hq|].
  intros ->. simpl in Hq.
  destruct Hadv as [->|Hlt]; [|rewrite Hq in Hlt; lia].
  destruct (Next_EOF_inv N s lit s' E) as [-> [[Hp _]|Hp]]; [auto|].
  rewrite Hq in Hp. apply (f_equal (@List.length rune)) in Hp.
  simpl in Hp. lia.
Qed.

Lemma Next_progress_witness :
  (List.length (pending (NewLexer (runes "a,b"))) < 4)%nat /\
  exists tok lit s' consumed,
    Next 4 (NewLexer (runes "a,b")) = Some ((tok, lit), s') /\
    pending (NewLexer (runes "a,b")) = consumed ++ pending s' /\
    (consumed = [] ->
     tok = EOF /\ lit = [] /\ pending (NewLexer (runes "a,b")) = []).
Proof.
  split; [simpl; lia|].
  apply (Next_progress 4 (NewLexer (runes "a,b"))). simpl. lia.
Defined.

(** [next] returns a token in every state, never a [WS] token; it consumes
    a prefix of the input, and nothing only when it returns [EOF]. *)
Theorem next_skips_whitespace N s :
  (List.length (pending s) < N)%nat ->
  exists tok lit s' consumed,
    next N s = Some ((tok, lit), s') /\
    tok <> WS /\
    pending s = consumed ++ pending s' /\
    (consumed = [] -> tok = EOF).
Proof.
  intro HN.
  destruct (next_total N s HN) as (tok & lit & s' & E & [q Hq] & Hne & Hadv & _).
  exists tok, lit, s', q. repeat split; auto.
  intros ->. simpl in Hq.
  destruct Hadv as [->|Hlt]; [reflexivity | rewrite Hq in Hlt; lia].
Qed.

Lemma next_skips_whitespace_witness :
  (List.length (pending (NewLexer (runes "  ,b"))) < 5)%nat /\
  exists tok lit s' consumed,
    next 5 (NewLexer (runes "  ,b")) = Some ((tok, lit), s') /\
    tok <> WS /\
    pending (NewLexer (runes "  ,b")) = consumed ++ pending s' /\
    (consumed = [] -> tok = EOF).
Proof.
  split; [simpl; lia|].
  apply (next_skips_whitespace 5 (NewLexer (runes "  ,b"))). simpl. lia.
Defined.
